(** * goproxy: the [Cacher] contract and its local-disk backend (cacher.go)

    A shallow embedding of [LocalCacher] (Get, Set, localName) and of
    [localCache] (Read, Seek, Close, Name, ModTime), run against a model of
    the parts of Go's [path/filepath], [os] and [io/ioutil] packages that the
    file calls, on a 64-bit Linux host.

    The host model: a tree of directories and regular files, one user with
    full access, no symbolic links, no resource exhaustion; the working
    directory is a directory of the tree.  Paths handed to the kernel are
    resolved lexically against the working directory; on the cleaned paths
    that cacher.go produces this agrees with physical resolution.  A path
    with a NUL byte is refused before the kernel sees it (EINVAL), and a
    path element of more than NAME_MAX = 255 bytes is refused by the
    directory that is asked for it (ENAMETOOLONG); the length of a whole
    path is not looked at, and the properties that need it ask for a path
    shorter than PATH_MAX.  A read of a regular file delivers every byte
    asked for, up to 1 GiB in one read and up to the end of the file.  An
    open file that was closed stays closed: its handle is never given out
    again. *)

From Stdlib Require Import ZArith Strings.Byte Strings.Ascii Strings.String.
From stdpp Require Import base option list gmap strings.

#[local] Set Warnings "-register-all".
#[local] Open Scope Z_scope.

(** ** Strings and path elements (package strings, path/filepath) *)

Module Filepath.

(** [filepath.Separator] on a UNIX host. *)
Definition Separator : ascii := "/"%char.

Definition IsPathSeparator (c : ascii) : bool := Ascii.eqb c Separator.

(** [strings.Split(s, "/")]: the elements between separators; always at
    least one element. *)
Fixpoint split (s : string) : list string :=
  match s with
  | EmptyString => [EmptyString]
  | String c s' =>
      if IsPathSeparator c then EmptyString :: split s'
      else match split s' with
           | [] => [String c EmptyString]
           | x :: xs => String c x :: xs
           end
  end.

(** [strings.Join(elems, "/")]. *)
Fixpoint join (elems : list string) : string :=
  match elems with
  | [] => EmptyString
  | [x] => x
  | x :: rest => x +:+ String Separator (join rest)
  end.

(** [strings.ReplaceAll(s, "/", string(sep))]. *)
Fixpoint replace_slash (sep : ascii) (s : string) : string :=
  match s with
  | EmptyString => EmptyString
  | String c s' =>
      String (if Ascii.eqb c "/"%char then sep else c) (replace_slash sep s')
  end.

(** [filepath.FromSlash]: the identity when the separator is the slash. *)
Definition FromSlash (path : string) : string :=
  if Ascii.eqb Separator "/"%char then path else replace_slash Separator path.

Definition rooted (path : string) : bool :=
  match path with
  | String c _ => IsPathSeparator c
  | EmptyString => false
  end.

(** One step of [filepath.Clean] over the elements of a path.  [out] is the
    output so far, last element first.  An empty element and "." are
    dropped; ".." backs up over the last element when there is one that is
    not itself "..", is dropped at the root of a rooted path, and is kept
    otherwise. *)
Definition clean_step (is_rooted : bool) (out : list string) (e : string)
  : list string :=
  if decide (e = ""%string) then out
  else if decide (e = "."%string) then out
  else if decide (e = ".."%string) then
    match out with
    | top :: below =>
        if decide (top = ".."%string) then e :: out else below
    | [] => if is_rooted then [] else [e]
    end
  else e :: out.

Definition clean_elems (is_rooted : bool) (init : list string)
  (elems : list string) : list string :=
  fold_left (clean_step is_rooted) elems init.

(** The path text for the cleaned elements [out], first element first. *)
Definition render (is_rooted : bool) (out : list string) : string :=
  if is_rooted then String Separator (join out)
  else match out with
       | [] => "."%string
       | _ => join out
       end.

(** [filepath.Clean]: the shortest equivalent path by lexical processing. *)
Definition Clean (path : string) : string :=
  render (rooted path) (rev (clean_elems (rooted path) [] (split path))).

(** [filepath.Join]: empty elements before the first non-empty one are
    ignored, the rest is joined with the separator and cleaned; all empty
    gives the empty string. *)
Fixpoint Join (elem : list string) : string :=
  match elem with
  | [] => EmptyString
  | e :: rest =>
      if decide (e = ""%string) then Join rest else Clean (join elem)
  end.

(** The part of [path] up to and including its last separator. *)
Fixpoint upto_last_sep (path : string) : string :=
  match path with
  | EmptyString => EmptyString
  | String c s' =>
      match upto_last_sep s' with
      | EmptyString =>
          if IsPathSeparator c then String c EmptyString else EmptyString
      | r => String c r
      end
  end.

(** [filepath.Dir]: all but the last element of [path], cleaned. *)
Definition Dir (path : string) : string := Clean (upto_last_sep path).

(** An element without a separator in it. *)
Fixpoint nosep (e : string) : bool :=
  match e with
  | EmptyString => true
  | String c e' => negb (IsPathSeparator c) && nosep e'
  end.

(** An element that [Clean] keeps as it is. *)
Definition plain (e : string) : Prop :=
  e ≠ ""%string ∧ e ≠ "."%string ∧ e ≠ ".."%string.

(** An element of a cleaned path: without separators and not empty. *)
Definition kept (e : string) : Prop := nosep e = true ∧ e ≠ ""%string.

(** The absolute location a path names for a process whose working
    directory is [cwd]: the elements from the root, first element first. *)
Definition start (is_rooted : bool) (cwd : list string) : list string :=
  if is_rooted then [] else rev cwd.

Definition abs (cwd : list string) (path : string) : list string :=
  rev (clean_elems true (start (rooted path) cwd) (split path)).

End Filepath.


(** ** The host: errors, file tree, open files (packages errors, os) *)

Module OS.

Inductive Errno :=
  ENOENT | ENOTDIR | EISDIR | EINVAL | ENAMETOOLONG | ENXIO.

(** Go [error] values.  [Sentinel] is a package-level [errors.New] value,
    compared by identity; [Syscall] is a [syscall.Errno]; [PathError] is
    [*os.PathError] with its operation and the error it wraps (its path
    text is not kept); [Foreign] is any error made outside these packages,
    such as one returned by a caller's reader or context. *)
Inductive error :=
| Sentinel (text : string)
| Syscall (e : Errno)
| PathError (op : string) (err : error)
| Foreign (text : string).

Coercion Syscall : Errno >-> error.

#[global] Instance Errno_eq_dec : EqDecision Errno.
Proof. solve_decision. Defined.
#[global] Instance error_eq_dec : EqDecision error.
Proof.
  intros x; induction x as [s|e|op x IH|s]; intros [s'|e'|op' y|s'];
    try (right; discriminate).
  - destruct (decide (s = s')) as [->|Hn];
      [left; reflexivity | right; intros [=]; contradiction].
  - destruct (decide (e = e')) as [->|Hn];
      [left; reflexivity | right; intros [=]; contradiction].
  - destruct (decide (op = op')) as [->|Hn];
      [|right; intros [=]; contradiction].
    destruct (IH y) as [->|Hn];
      [left; reflexivity | right; intros [=]; contradiction].
  - destruct (decide (s = s')) as [->|Hn];
      [left; reflexivity | right; intros [=]; contradiction].
Defined.

Definition io_EOF : error := Sentinel "EOF".
Definition ErrClosed : error := Sentinel "file already closed".
Definition ErrNotExist : error := Sentinel "file does not exist".
(** [poll.ErrFileClosing], which [File.Stat] passes on as it is. *)
Definition ErrFileClosing : error := Sentinel "use of closed file".

(** [os.underlyingError]: the error inside a [*PathError]. *)
Definition underlyingError (err : error) : error :=
  match err with
  | PathError _ e => e
  | _ => err
  end.

(** [os.IsNotExist]: true for ENOENT and [ErrNotExist] only. *)
Definition IsNotExist (err : error) : bool :=
  let err := underlyingError err in
  bool_decide (err = Syscall ENOENT) || bool_decide (err = ErrNotExist).

Inductive result (A : Type) :=
| Ok (a : A)
| Error (err : error).
Arguments Ok {A} a.
Arguments Error {A} err.

(** A node of the file tree: a regular file with its bytes and its
    modification time, or a directory with its modification time and its
    entries. *)
Inductive Node :=
| File (data : list byte) (mtime : Z)
| Dir (mtime : Z) (entries : gmap string Node).

(** An open file description: the location it was opened at and the
    read/seek position.  Nothing in this model unlinks or renames, so the
    location stands for the inode. *)
Record OpenFile := { of_path : list string; of_offset : Z }.

Record World := {
  w_root : Node;                  (* the directory "/" *)
  w_cwd : list string;            (* working directory of the process *)
  w_env : gmap string string;     (* environment variables *)
  w_clock : Z;                    (* current time *)
  w_files : gmap nat OpenFile;    (* open files, by handle *)
  w_closed : gset nat;            (* handles of files that were closed *)
  w_maxbytes : Z;                 (* largest file offset of the file system *)
  w_lseek : Node → Z → Z → Z → Errno + Z
    (* the file system's answer to lseek(2) where it is its own: on a
       directory, and for SEEK_DATA and SEEK_HOLE on a regular file; from
       the node, the position, the offset and whence *)
}.

Definition set_root (w : World) (r : Node) : World :=
  {| w_root := r; w_cwd := w_cwd w; w_env := w_env w; w_clock := w_clock w;
     w_files := w_files w; w_closed := w_closed w;
     w_maxbytes := w_maxbytes w; w_lseek := w_lseek w |}.

Definition set_files (w : World) (fs : gmap nat OpenFile) : World :=
  {| w_root := w_root w; w_cwd := w_cwd w; w_env := w_env w;
     w_clock := w_clock w; w_files := fs; w_closed := w_closed w;
     w_maxbytes := w_maxbytes w; w_lseek := w_lseek w |}.

Definition set_closed (w : World) (cl : gset nat) : World :=
  {| w_root := w_root w; w_cwd := w_cwd w; w_env := w_env w;
     w_clock := w_clock w; w_files := w_files w; w_closed := cl;
     w_maxbytes := w_maxbytes w; w_lseek := w_lseek w |}.

(** The handle of the next file opened: a [*os.File] that is neither open
    nor one that was closed (a closed [*os.File] stays closed). *)
Definition new_handle (w : World) : nat :=
  fresh (dom (w_files w) ∪ w_closed w).

(** Time passing between two calls. *)
Definition advance (d : Z) (w : World) : World :=
  {| w_root := w_root w; w_cwd := w_cwd w; w_env := w_env w;
     w_clock := w_clock w + d; w_files := w_files w;
     w_closed := w_closed w; w_maxbytes := w_maxbytes w;
     w_lseek := w_lseek w |}.

(** A path with a NUL byte is refused by Go's syscall wrappers with EINVAL
    before the kernel sees it. *)
Fixpoint has_nul (e : string) : bool :=
  match e with
  | EmptyString => false
  | String c e' => Ascii.eqb c "000"%char || has_nul e'
  end.

(** A path element of more than NAME_MAX bytes is ENAMETOOLONG wherever a
    directory is asked for it. *)
Definition NAME_MAX : Z := 255.

Definition too_long (e : string) : bool :=
  NAME_MAX <? Z.of_nat (String.length e).

(** The kernel's walk from node [n]: ENOTDIR when an element is looked up
    in a regular file, ENAMETOOLONG for an element longer than NAME_MAX,
    ENOENT when a directory lacks the element. *)
Fixpoint walk (n : Node) (p : list string) : Errno + Node :=
  match p with
  | [] => inr n
  | x :: p' =>
      match n with
      | File _ _ => inl ENOTDIR
      | Dir _ es =>
          if too_long x then inl ENAMETOOLONG
          else
            match es !! x with
            | None => inl ENOENT
            | Some c => walk c p'
            end
      end
  end.

(** A path string of PATH_MAX bytes or more is refused by the kernel.  The
    calls below do not look at the length of the whole path; the
    properties that depend on it ask for a shorter path. *)
Definition PATH_MAX : Z := 4096.

(** Path resolution from node [n] by a system call: EINVAL for a NUL byte
    anywhere in the path, then the kernel's walk. *)
Definition lookup_path (n : Node) (p : list string) : Errno + Node :=
  if existsb has_nul p then inl EINVAL else walk n p.

(** [os.MkdirAll] of location [p] below [n] at time [now]: the tree it
    leaves and the error it stops with.  Directories are made from the top
    down: existing ones are kept as they are, missing ones are created
    (which stamps the directory that receives the new entry), and the first
    element that cannot be made stops the call, with the directories made
    so far left in place: ENOTDIR for a regular file on the way, EINVAL for
    an element with a NUL byte, ENAMETOOLONG for one longer than
    NAME_MAX. *)
Fixpoint mkdir_all (now : Z) (n : Node) (p : list string)
  : Node * option Errno :=
  match n with
  | File _ _ => (n, Some ENOTDIR)
  | Dir mt es =>
      match p with
      | [] => (n, None)
      | x :: p' =>
          if has_nul x then (n, Some EINVAL)
          else if too_long x then (n, Some ENAMETOOLONG)
          else
            match es !! x with
            | Some c =>
                let (c', r) := mkdir_all now c p' in
                (Dir mt (<[x := c']> es), r)
            | None =>
                let (c', r) := mkdir_all now (Dir now ∅) p' in
                (Dir now (<[x := c']> es), r)
            end
      end
  end.

(** The kernel's part of opening location [p] below [n] with
    O_WRONLY|O_CREATE|O_TRUNC, writing [data] and closing, at time
    [now]. *)
Fixpoint create (now : Z) (data : list byte) (n : Node) (p : list string)
  : Errno + Node :=
  match p with
  | [] =>
      match n with
      | File _ _ => inr (File data now)
      | Dir _ _ => inl EISDIR
      end
  | x :: p' =>
      match n with
      | File _ _ => inl ENOTDIR
      | Dir mt es =>
          if too_long x then inl ENAMETOOLONG
          else
            match es !! x with
            | Some c =>
                match create now data c p' with
                | inl e => inl e
                | inr c' => inr (Dir mt (<[x := c']> es))
                end
            | None =>
                match p' with
                | [] => inr (Dir now (<[x := File data now]> es))
                | _ :: _ => inl ENOENT
                end
            end
      end
  end.

(** The tree after writing the file at location [p]: EINVAL for a NUL byte
    anywhere in the path, then the kernel's part. *)
Definition write_file (now : Z) (data : list byte) (n : Node)
  (p : list string) : Errno + Node :=
  if existsb has_nul p then inl EINVAL else create now data n p.

Definition Getenv (key : string) (w : World) : string :=
  default ""%string (w_env w !! key).

(** [os.TempDir] on UNIX: $TMPDIR, or "/tmp" when that is empty. *)
Definition TempDir (w : World) : string :=
  let dir := Getenv "TMPDIR" w in
  if decide (dir = ""%string) then "/tmp"%string else dir.

(** The location a path string names; the empty path names nothing. *)
Definition locate (w : World) (path : string) : Errno + list string :=
  if decide (path = ""%string) then inl ENOENT
  else inr (Filepath.abs (w_cwd w) path).

(** [os.Open]: open for reading.  Directories can be opened too. *)
Definition Open (path : string) (w : World) : World * result nat :=
  match locate w path with
  | inl e => (w, Error (PathError "open" e))
  | inr p =>
      match lookup_path (w_root w) p with
      | inl e => (w, Error (PathError "open" e))
      | inr _ =>
          let fd := new_handle w in
          (set_files w (<[fd := {| of_path := p; of_offset := 0 |}]>
                          (w_files w)),
           Ok fd)
      end
  end.

(** [os.FileInfo], without the size, which for a directory is the file
    system's own. *)
Record FileInfo := { fi_ModTime : Z; fi_IsDir : bool }.

Definition node_info (n : Node) : FileInfo :=
  match n with
  | File _ mt => {| fi_ModTime := mt; fi_IsDir := false |}
  | Dir mt _ => {| fi_ModTime := mt; fi_IsDir := true |}
  end.

(** [File.Stat] of package os. *)
Definition File_Stat (fd : nat) (w : World) : result FileInfo :=
  match w_files w !! fd with
  | None => Error (PathError "stat" ErrFileClosing)
  | Some o =>
      match lookup_path (w_root w) (of_path o) with
      | inl e => Error (PathError "stat" e)
      | inr n => Ok (node_info n)
      end
  end.

(** [os.MkdirAll]. *)
Definition MkdirAll (path : string) (w : World) : World * option error :=
  match locate w path with
  | inl e => (w, Some (PathError "mkdir" e))
  | inr p =>
      match mkdir_all (w_clock w) (w_root w) p with
      | (r, Some e) => (set_root w r, Some (PathError "mkdir" e))
      | (r, None) => (set_root w r, None)
      end
  end.

(** [ioutil.WriteFile]. *)
Definition WriteFile (filename : string) (data : list byte) (w : World)
  : World * option error :=
  match locate w filename with
  | inl e => (w, Some (PathError "open" e))
  | inr p =>
      match write_file (w_clock w) data (w_root w) p with
      | inl e => (w, Some (PathError "open" e))
      | inr r => (set_root w r, None)
      end
  end.

(** One read moves at most [maxRW] bytes (1 GiB), whatever the buffer. *)
Definition maxRW : Z := 1073741824.

Definition read_size (n : nat) : nat := Z.to_nat (Z.min (Z.of_nat n) maxRW).

(** [File.Read] of package os into a buffer of [n] bytes: the bytes read
    and the error.  A closed file is reported first, then a buffer of no
    bytes reads nothing, from a directory too; a directory is EISDIR; at
    the end of a regular file the read gets [io.EOF]. *)
Definition File_Read (fd : nat) (n : nat) (w : World)
  : World * (list byte * option error) :=
  match w_files w !! fd with
  | None => (w, ([], Some (PathError "read" ErrClosed)))
  | Some o =>
      match n with
      | O => (w, ([], None))
      | S _ =>
          match lookup_path (w_root w) (of_path o) with
          | inl e => (w, ([], Some (PathError "read" e)))
          | inr (Dir _ _) => (w, ([], Some (PathError "read" EISDIR)))
          | inr (File data _) =>
              match take (read_size n) (drop (Z.to_nat (of_offset o)) data)
              with
              | [] => (w, ([], Some io_EOF))
              | chunk =>
                  let o' := {| of_path := of_path o;
                               of_offset := of_offset o
                                            + Z.of_nat (length chunk) |} in
                  (set_files w (<[fd := o']> (w_files w)), (chunk, None))
              end
          end
      end
  end.

Definition MaxInt64 : Z := 9223372036854775807.

(** lseek(2) on a regular file of [size] bytes at position [pos], for
    SEEK_SET, SEEK_CUR and SEEK_END ([whence] 0, 1, 2): EINVAL for a
    position that is negative or beyond the largest offset [limit]. *)
Definition lseek_file (limit size pos offset whence : Z) : Errno + Z :=
  let target :=
    if decide (whence = 0) then offset
    else if decide (whence = 1) then pos + offset
    else size + offset in
  if decide (target < 0) then inl EINVAL
  else if decide (limit < target) then inl EINVAL
  else inr target.

(** [File.Seek] of package os; [whence] 0, 1, 2 are io.SeekStart,
    io.SeekCurrent, io.SeekEnd.  The kernel takes [whence] as an unsigned
    int, the low 32 bits of Go's int, and refuses a value above SEEK_MAX
    = 4.  On a regular file the three POSIX values are answered by
    [lseek_file]; the largest offset is the file system's, within int64,
    and a file that is larger than that can be sought to its end.  SEEK_DATA
    and SEEK_HOLE, and every seek on a directory, are answered by the file
    system. *)
Definition File_Seek (fd : nat) (offset : Z) (whence : Z) (w : World)
  : World * result Z :=
  match w_files w !! fd with
  | None => (w, Error (PathError "seek" ErrClosed))
  | Some o =>
      match lookup_path (w_root w) (of_path o) with
      | inl e => (w, Error (PathError "seek" e))
      | inr n =>
          let wh := whence mod 4294967296 in
          let r :=
            if decide (4 < wh) then inl EINVAL
            else
              match n with
              | File data _ =>
                  if decide (wh ≤ 2) then
                    let size := Z.of_nat (length data) in
                    lseek_file (Z.max size (Z.min (w_maxbytes w) MaxInt64))
                      size (of_offset o) offset wh
                  else w_lseek w n (of_offset o) offset wh
              | Dir _ _ => w_lseek w n (of_offset o) offset wh
              end in
          match r with
          | inl e => (w, Error (PathError "seek" e))
          | inr pos =>
              let o' := {| of_path := of_path o; of_offset := pos |} in
              (set_files w (<[fd := o']> (w_files w)), Ok pos)
          end
      end
  end.

(** [File.Close] of package os. *)
Definition File_Close (fd : nat) (w : World) : World * option error :=
  match w_files w !! fd with
  | None => (w, Some (PathError "close" ErrClosed))
  | Some _ =>
      (set_closed (set_files w (delete fd (w_files w))) ({[fd]} ∪ w_closed w),
       None)
  end.

(** A caller's [io.Reader]: the chunks its successive reads deliver, then
    the error that ends the stream ([io.EOF] for a clean end). *)
Record Reader := { rd_chunks : list (list byte); rd_end : error }.

(** [ioutil.ReadAll]: everything read until the stream ends; [io.EOF] is
    not reported as an error. *)
Definition ReadAll (r : Reader) : list byte * option error :=
  (concat (rd_chunks r),
   if decide (rd_end r = io_EOF) then None else Some (rd_end r)).

(** [context.Context], as far as its [Err] method: [None] while the
    context is live, the cancellation error afterwards. *)
Record Context := { ctx_Err : option error }.

End OS.

(** ** Package goproxy: cacher.go *)

Import OS.

Arguments too_long : simpl never.

(** [ErrCacheNotFound = errors.New("cache not found")]. *)
Definition ErrCacheNotFound : error := Sentinel "cache not found".

(** [type LocalCacher struct { Root string }]. *)
Record LocalCacher := { Root : string }.

(** [type localCache struct { file *os.File; name string; modTime time.Time }]. *)
Record localCache := {
  lc_file : nat;
  lc_name : string;
  lc_modTime : Z
}.

(** [func (c *LocalCacher) localName(name string) string]. *)
Definition LocalCacher_localName (c : LocalCacher) (name : string) (w : World)
  : string :=
  let name := Filepath.FromSlash name in
  if decide (Root c ≠ ""%string)
  then Filepath.Join [Filepath.FromSlash (Root c); name]
  else Filepath.Join [TempDir w; name].

(** [func (c *LocalCacher) Get(ctx, name) (Cache, error)]. *)
Definition LocalCacher_Get (c : LocalCacher) (ctx : Context) (name : string)
  (w : World) : World * result localCache :=
  match Open (LocalCacher_localName c name w) w with
  | (w1, Error err) =>
      if IsNotExist err then (w1, Error ErrCacheNotFound)
      else (w1, Error err)
  | (w1, Ok file) =>
      match File_Stat file w1 with
      | Error err => (w1, Error err)
      | Ok fileInfo =>
          (w1, Ok {| lc_file := file; lc_name := name;
                     lc_modTime := fi_ModTime fileInfo |})
      end
  end.

(** [func (c *LocalCacher) Set(ctx, name, r) error]. *)
Definition LocalCacher_Set (c : LocalCacher) (ctx : Context) (name : string)
  (r : Reader) (w : World) : World * option error :=
  match ReadAll r with
  | (_, Some err) => (w, Some err)
  | (b, None) =>
      let localName := LocalCacher_localName c name w in
      match MkdirAll (Filepath.Dir localName) w with
      | (w1, Some err) => (w1, Some err)
      | (w1, None) => WriteFile localName b w1
      end
  end.

(** [func (lc *localCache) Read(b []byte) (int, error)], for a buffer of
    [n] bytes. *)
Definition localCache_Read (lc : localCache) (n : nat) (w : World)
  : World * (list byte * option error) :=
  File_Read (lc_file lc) n w.

(** [func (lc *localCache) Seek(offset int64, whence int) (int64, error)]. *)
Definition localCache_Seek (lc : localCache) (offset : Z) (whence : Z)
  (w : World) : World * result Z :=
  File_Seek (lc_file lc) offset whence w.

(** [func (lc *localCache) Close() error]. *)
Definition localCache_Close (lc : localCache) (w : World)
  : World * option error :=
  File_Close (lc_file lc) w.

(** [func (lc *localCache) Name() string]. *)
Definition localCache_Name (lc : localCache) : string := lc_name lc.

(** [func (lc *localCache) ModTime() time.Time]. *)
Definition localCache_ModTime (lc : localCache) : Z := lc_modTime lc.

(** ** Observations used by the properties *)

(** Reading an entry to the end of the stream with a buffer of [bufsize]
    bytes, as [ioutil.ReadAll] does on a [Cache]: the bytes, or the error
    that stopped the reading.  [None] when [fuel] reads were not enough. *)
Fixpoint read_to_end (fuel : nat) (bufsize : nat) (lc : localCache)
  (w : World) : option (World * result (list byte)) :=
  match fuel with
  | O => None
  | S fuel' =>
      match localCache_Read lc bufsize w with
      | (w1, (chunk, None)) =>
          match read_to_end fuel' bufsize lc w1 with
          | Some (w2, Ok rest) => Some (w2, Ok (chunk ++ rest))
          | other => other
          end
      | (w1, (chunk, Some err)) =>
          if decide (err = io_EOF) then Some (w1, Ok chunk)
          else Some (w1, Error err)
      end
  end.

(** A reader over the bytes [P] that ends cleanly. *)
Definition bytes_reader (P : list byte) : Reader :=
  {| rd_chunks := [P]; rd_end := io_EOF |}.

Definition background : Context := {| ctx_Err := None |}.
Definition cancelled : Context :=
  {| ctx_Err := Some (Foreign "context canceled") |}.

(** A host with an empty root directory. *)
Definition empty_world : World :=
  {| w_root := Dir 0 ∅; w_cwd := []; w_env := ∅; w_clock := 1;
     w_files := ∅; w_closed := ∅; w_maxbytes := MaxInt64;
     w_lseek := λ _ _ _ _, inl EINVAL |}.

(** The world and entry that [Get] returns when the local name resolves to
    a node of the tree. *)
Definition opened (w : World) (p : list string) : World :=
  set_files w
    (<[new_handle w := {| of_path := p; of_offset := 0 |}]> (w_files w)).

Definition entry_of (w : World) (name : string) (node : Node) : localCache :=
  {| lc_file := new_handle w; lc_name := name;
     lc_modTime := fi_ModTime (node_info node) |}.

(** A segment of a cache name: a path element that is not empty, not "."
    or "..", and has no separator in it.  A UNIX-style relative name such
    as "a/b/c" is [Filepath.join] of its segments. *)
Definition segment (e : string) : Prop :=
  Filepath.plain e ∧ Filepath.nosep e = true.

(** A file name the host takes: no NUL byte in it, and no more than
    NAME_MAX bytes. *)
Definition valid_name (e : string) : Prop :=
  has_nul e = false ∧ too_long e = false.

(** A path string the kernel takes: shorter than PATH_MAX bytes. *)
Definition short_path (path : string) : Prop :=
  Z.of_nat (String.length path) < PATH_MAX.

(** The text of the directory a cacher stores under, and its location. *)
Definition root_text (c : LocalCacher) (w : World) : string :=
  if decide (Root c = ""%string) then TempDir w else Root c.

Definition root_dir (c : LocalCacher) (w : World) : list string :=
  Filepath.abs (w_cwd w) (root_text c w).

(** The regular file at a location of the tree: its bytes and its
    modification time. *)
Definition file_at (n : Node) (p : list string) : option (list byte * Z) :=
  match lookup_path n p with
  | inr (File data mt) => Some (data, mt)
  | _ => None
  end.

(** What is cached under a name, as seen through a cacher: the bytes and
    the modification time of the regular file at the local name. *)
Definition cached (c : LocalCacher) (name : string) (w : World)
  : option (list byte * Z) :=
  match locate w (LocalCacher_localName c name w) with
  | inr p => file_at (w_root w) p
  | inl _ => None
  end.




(** A regular file stands at a location or on the way to it. *)
Definition blocked (n : Node) (p : list string) : bool :=
  match lookup_path n p with
  | inl ENOTDIR | inr (File _ _) => true
  | _ => false
  end.

(** A location holds a directory. *)
Definition is_dir (n : Node) (p : list string) : bool :=
  match lookup_path n p with
  | inr (Dir _ _) => true
  | _ => false
  end.

(** * Checks of the model on concrete inputs *)

Section FilepathExamples.
Import Filepath.
#[local] Open Scope string_scope.

Example split_ex : split "a//b/" = ["a"; ""; "b"; ""].
Proof. reflexivity. Qed.

Example Clean_table :
    map Clean [""; "abc"; "a/b/c"; "."; ".."; "../../abc"; "/"; "abc/";
               "../"; "/abc/"; "abc//def//ghi"; "//abc//"; "abc/./def";
               "abc/def/ghi/../jkl"; "abc/def/../.."; "/abc/def/../..";
               "abc/def/../../.."; "/abc/def/../../..";
               "abc/def/../../../ghi/jkl/../../../mno"; "/../abc";
               "abc/../../././../def"]
    = ["."; "abc"; "a/b/c"; "."; ".."; "../../abc"; "/"; "abc";
       ".."; "/abc"; "abc/def/ghi"; "/abc"; "abc/def";
       "abc/def/jkl"; "."; "/";
       ".."; "/";
       "../../mno"; "/abc";
       "../../def"].
Proof. vm_compute. reflexivity. Qed.

Example Join_table :
    map Join [["a"; "b"]; ["a"; ""]; [""; "b"]; [""; ""]; ["/"; "a"];
              ["/tmp"; "x/y"]; ["/r/"; "../s"]; ["a"; "/b"]]
    = ["a/b"; "a"; "b"; ""; "/a"; "/tmp/x/y"; "/s"; "a/b"].
Proof. vm_compute. reflexivity. Qed.

Example Dir_table :
    map Dir ["/foo/bar/baz.js"; "/foo/bar/baz"; "/foo/bar/baz/"; "dev.txt";
             "../todo.txt"; ".."; "."; "/"; ""; "/a"]
    = ["/foo/bar"; "/foo/bar"; "/foo/bar/baz"; "."; ".."; "."; "."; "/"; ".";
       "/"].
Proof. vm_compute. reflexivity. Qed.

Example abs_table :
    map (abs ["home"; "u"]) ["/tmp/x"; "cache/a"; "../v"; "."; "/"]
    = [["tmp"; "x"]; ["home"; "u"; "cache"; "a"]; ["home"; "v"];
       ["home"; "u"]; []].
Proof. vm_compute. reflexivity. Qed.
End FilepathExamples.

Section Examples.
#[local] Open Scope string_scope.
Let c := {| Root := "/var/cache" |}.
Let P : list byte := [x01; x02; x03]%byte.

Example localName_ex :
    LocalCacher_localName c "github.com/a/b/@v/list" empty_world
    = "/var/cache/github.com/a/b/@v/list".
Proof. vm_compute. reflexivity. Qed.

Example localName_tmp_ex :
    LocalCacher_localName {| Root := "" |} "m/@v/v1.info" empty_world
    = "/tmp/m/@v/v1.info".
Proof. vm_compute. reflexivity. Qed.

Example Get_miss_ex :
    (LocalCacher_Get c background "a/b" empty_world).2 = Error ErrCacheNotFound.
Proof. vm_compute. reflexivity. Qed.

Example Set_Get_ex :
    let w1 := (LocalCacher_Set c background "a/b" (bytes_reader P) empty_world).1 in
    match LocalCacher_Get c background "a/b" w1 with
    | (w2, Ok lc) =>
        localCache_Name lc = "a/b" ∧ localCache_ModTime lc = 1 ∧
        (snd <$> read_to_end 5 2 lc w2) = Some (Ok P)
    | _ => False
    end.
Proof. vm_compute. auto. Qed.

(** A NUL byte in the name is refused before the tree is looked at; an
    element of 256 bytes is refused by the directory asked for it, after
    the directories above it were made. *)
Example Get_nul_ex :
    (LocalCacher_Get c background (String "000"%char "a") empty_world).2
    = Error (PathError "open" EINVAL).
Proof. vm_compute. reflexivity. Qed.

Example Set_long_ex :
    let long := string_of_list_ascii (replicate 256 "x"%char) in
    let w1 := (LocalCacher_Set c background (long +:+ "/f") (bytes_reader P)
                 empty_world) in
    w1.2 = Some (PathError "mkdir" ENAMETOOLONG) ∧
    is_dir (w_root w1.1) ["var"; "cache"] = true ∧
    (LocalCacher_Get c background long w1.1).2
    = Error (PathError "open" ENAMETOOLONG).
Proof. vm_compute. auto. Qed.

(** Positions: a read moves the position on, a seek from the end goes
    back, and [whence] is taken by its low 32 bits. *)
Example Seek_ex :
    let w1 := (LocalCacher_Set c background "f" (bytes_reader P) empty_world).1 in
    let lc := entry_of w1 "f" (File P 1) in
    let w2 := opened w1 ["var"; "cache"; "f"] in
    (localCache_Seek lc (-1) 2 w2).2 = Ok 2 ∧
    (localCache_Seek lc (-1) 0 w2).2 = Error (PathError "seek" EINVAL) ∧
    (localCache_Seek lc 1 5 w2).2 = Error (PathError "seek" EINVAL) ∧
    (localCache_Seek lc 1 4294967296 w2).2 = Ok 1 ∧
    (localCache_Seek lc 1 1 (localCache_Read lc 1 w2).1).2 = Ok 2 ∧
    (localCache_Seek lc 1 2 w2).2 = Ok 4.
Proof. vm_compute. auto 10. Qed.
End Examples.

(** * Properties *)

(** ** The file tree *)

Section Tree.
Implicit Types (n : Node) (p q : list string) (data : list byte).

Lemma lookup_path_inr n p m :
  lookup_path n p = inr m ↔ existsb has_nul p = false ∧ walk n p = inr m.
Proof.
  unfold lookup_path. destruct (existsb has_nul p).
  - split; [done|]. by intros [? _].
  - split; [done|]. by intros [_ ?].
Qed.

Lemma lookup_path_clean n p :
  existsb has_nul p = false → lookup_path n p = walk n p.
Proof. unfold lookup_path. by intros ->. Qed.

Lemma lookup_path_nul n p :
  existsb has_nul p = true → lookup_path n p = inl EINVAL.
Proof. unfold lookup_path. by intros ->. Qed.

Lemma walk_app n p q :
  walk n (p ++ q) =
  match walk n p with
  | inl e => inl e
  | inr m => walk m q
  end.
Proof.
  revert n. induction p as [|x p IH]; intros n; simpl; [done|].
  destruct n as [|mt es]; [done|]. destruct (too_long x); [done|].
  destruct (es !! x); [apply IH|done].
Qed.

Lemma walk_create now data p : ∀ n n',
  create now data n p = inr n' → walk n' p = inr (File data now).
Proof.
  induction p as [|x p IH]; intros n n' H; simpl in *.
  - destruct n; naive_solver.
  - destruct n as [|mt es]; [done|].
    destruct (too_long x) eqn:Hlen; [done|].
    destruct (es !! x) as [c|] eqn:Hx.
    + destruct (create now data c p) as [e|c'] eqn:Hw; [done|].
      injection H as <-. simpl. rewrite lookup_insert_eq. eauto.
    + destruct p; [|done]. injection H as <-. simpl.
      by rewrite lookup_insert_eq.
Qed.

(** After a successful write the location holds exactly the written bytes,
    stamped with the time of the write. *)
Lemma lookup_write_file now data p n n' :
  write_file now data n p = inr n' →
  lookup_path n' p = inr (File data now).
Proof.
  unfold write_file, lookup_path.
  destruct (existsb has_nul p); [done|]. apply walk_create.
Qed.

Lemma create_keeps_dirs now data p : ∀ n n' q mt es,
  create now data n p = inr n' →
  walk n q = inr (Dir mt es) →
  ∃ mt' es', walk n' q = inr (Dir mt' es').
Proof.
  induction p as [|x p IH]; intros n n' q mt0 es0 H Hq; simpl in *.
  - destruct n; [|done]. destruct q; simplify_eq/=.
  - destruct n as [|mt es]; [done|].
    destruct (too_long x) eqn:Hlen; [done|].
    destruct (es !! x) as [c|] eqn:Hx.
    + destruct (create now data c p) as [e|c'] eqn:Hw; [done|].
      injection H as <-. destruct q as [|y q]; simpl in *; [eauto|].
      destruct (too_long y); [done|].
      destruct (decide (x = y)) as [->|Hne].
      * rewrite lookup_insert_eq. rewrite Hx in Hq. eauto.
      * rewrite lookup_insert_ne by done. eauto.
    + destruct p; [|done]. injection H as <-.
      destruct q as [|y q]; simpl in *; [eauto|].
      destruct (too_long y); [done|].
      destruct (decide (x = y)) as [->|Hne].
      * by rewrite Hx in Hq.
      * rewrite lookup_insert_ne by done. eauto.
Qed.

(** A write never turns a directory into something else, and never makes
    one disappear. *)
Lemma write_file_keeps_dirs now data p n n' q mt es :
  write_file now data n p = inr n' →
  lookup_path n q = inr (Dir mt es) →
  ∃ mt' es', lookup_path n' q = inr (Dir mt' es').
Proof.
  unfold write_file. destruct (existsb has_nul p); [done|].
  intros H [Hc Hq]%lookup_path_inr.
  destruct (create_keeps_dirs _ _ _ _ _ _ _ _ H Hq) as (mt' & es' & Hq').
  exists mt', es'. by apply lookup_path_inr.
Qed.

(** [mkdir_all] on a location that is already a directory changes
    nothing. *)
Lemma mkdir_all_existing now p : ∀ n mt es,
  lookup_path n p = inr (Dir mt es) → mkdir_all now n p = (n, None).
Proof.
  intros n mt0 es0 [Hc H]%lookup_path_inr. revert n Hc H.
  induction p as [|x p IH]; intros n Hc H; simpl in *.
  - by simplify_eq.
  - destruct n as [|mt es]; [done|]. simpl.
    apply orb_false_elim in Hc as [-> Hc].
    destruct (too_long x); [done|].
    destruct (es !! x) as [c|] eqn:Hx; [|done].
    rewrite (IH _ Hc H). by rewrite insert_id.
Qed.

(** A write to a location that holds a regular file succeeds. *)
Lemma write_file_existing now data p n d0 t0 :
  lookup_path n p = inr (File d0 t0) →
  ∃ n', write_file now data n p = inr n'.
Proof.
  intros [Hc H]%lookup_path_inr. unfold write_file. rewrite Hc. clear Hc.
  revert n H. induction p as [|x p IH]; intros n H; simpl in *.
  - simplify_eq. eauto.
  - destruct n as [|mt es]; [done|].
    destruct (too_long x); [done|].
    destruct (es !! x) as [c|] eqn:Hx; [|done].
    destruct (IH _ H) as [c' ->]. eauto.
Qed.

End Tree.

(** ** Open files and reading *)

Section Handles.
Implicit Types (w : World) (lc : localCache).

Lemma Open_ok path w p node :
  locate w path = inr p →
  lookup_path (w_root w) p = inr node →
  Open path w =
    (set_files w (<[new_handle w := {| of_path := p; of_offset := 0 |}]>
                    (w_files w)),
     Ok (new_handle w)).
Proof. intros Hl Hn. unfold Open. by rewrite Hl, Hn. Qed.


(** Reading to the end of a regular file from position [off] gives the
    bytes from [off] on, for every buffer size and enough fuel. *)
Lemma read_to_end_file bufsize lc data mt : ∀ fuel w p off,
  (0 < bufsize)%nat →
  w_files w !! lc_file lc = Some {| of_path := p; of_offset := off |} →
  lookup_path (w_root w) p = inr (File data mt) →
  0 ≤ off →
  (length (drop (Z.to_nat off) data) < fuel)%nat →
  ∃ w', read_to_end fuel bufsize lc w
        = Some (w', Ok (drop (Z.to_nat off) data)) ∧
        w_root w' = w_root w.
Proof.
  induction fuel as [|fuel IH]; intros w p off Hb Hfd Hnode Hoff Hfuel;
    [lia|].
  simpl. unfold localCache_Read, File_Read. rewrite Hfd.
  destruct bufsize as [|b0]; [lia|]. simpl of_path. simpl of_offset.
  rewrite Hnode.
  assert (Hsize : (0 < read_size (S b0))%nat)
    by (unfold read_size, maxRW; lia).
  destruct (read_size (S b0)) as [|b]; [lia|]. clear Hsize.
  set (rest := drop (Z.to_nat off) data) in *.
  destruct (take (S b) rest) as [|x chunk] eqn:Hchunk.
  - destruct rest; [|done]. rewrite decide_True by done. eauto.
  - assert (Hk0 : (0 < length (x :: chunk))%nat) by (simpl; lia).
    assert (Hk : length (x :: chunk) = (S b `min` length rest)%nat)
      by (rewrite <- Hchunk; apply length_take).
    assert (Hsplit : rest = (x :: chunk) ++ drop (length (x :: chunk)) rest).
    { rewrite <- Hchunk at 1. rewrite Hk.
      rewrite <- (take_drop (S b) rest) at 1. f_equal.
      destruct (decide (S b ≤ length rest)%nat).
      - by rewrite Nat.min_l.
      - rewrite Nat.min_r by lia. rewrite !drop_ge; [done|lia|lia]. }
    remember (x :: chunk) as ch eqn:Hch. clear Hch Hchunk.
    set (w1 := set_files w _).
    assert (Hdrop : drop (Z.to_nat (off + Z.of_nat (length ch))) data
                    = drop (length ch) rest).
    { subst rest. rewrite drop_drop. f_equal. lia. }
    destruct (IH w1 p (off + Z.of_nat (length ch))) as (w' & Hr & Hroot).
    + lia.
    + subst w1. simpl. by rewrite lookup_insert_eq.
    + done.
    + lia.
    + rewrite Hdrop, length_drop. lia.
    + rewrite Hr, Hdrop. eexists; split; [|exact Hroot].
      by rewrite Hsplit at 2.
Qed.

(** A seek on a regular file, from the start, the position or the end. *)
Lemma File_Seek_file fd offset whence w p pos data mt t :
  w_files w !! fd = Some {| of_path := p; of_offset := pos |} →
  lookup_path (w_root w) p = inr (File data mt) →
  0 ≤ whence ≤ 2 →
  lseek_file (Z.max (Z.of_nat (length data))
                (Z.min (w_maxbytes w) MaxInt64))
    (Z.of_nat (length data)) pos offset whence = inr t →
  File_Seek fd offset whence w
  = (set_files w (<[fd := {| of_path := p; of_offset := t |}]> (w_files w)),
     Ok t).
Proof.
  intros Hfd Hn Hwh Ht. unfold File_Seek. rewrite Hfd. simpl of_path.
  rewrite Hn. rewrite Z.mod_small by lia.
  rewrite decide_False by lia. rewrite decide_True by lia.
  simpl of_offset. by rewrite Ht.
Qed.

Lemma lseek_file_within limit size pos offset whence :
  size ≤ limit →
  0 ≤ (if decide (whence = 0) then offset
       else if decide (whence = 1) then pos + offset else size + offset)
    ≤ size →
  lseek_file limit size pos offset whence
  = inr (if decide (whence = 0) then offset
         else if decide (whence = 1) then pos + offset else size + offset).
Proof.
  intros Hl Ht. unfold lseek_file.
  rewrite decide_False by lia. by rewrite decide_False by lia.
Qed.

End Handles.

(** ** Get and Set, step by step *)

Section GetSet.
Implicit Types (w : World) (c : LocalCacher) (ctx : Context) (lc : localCache).

Lemma Get_found c ctx name w p node :
  locate w (LocalCacher_localName c name w) = inr p →
  lookup_path (w_root w) p = inr node →
  LocalCacher_Get c ctx name w = (opened w p, Ok (entry_of w name node)).
Proof.
  intros Hl Hn. unfold LocalCacher_Get. rewrite (Open_ok _ _ _ _ Hl Hn).
  unfold File_Stat. simpl. rewrite lookup_insert_eq. simpl. by rewrite Hn.
Qed.

Lemma Get_ok_inv c ctx name w w1 lc :
  LocalCacher_Get c ctx name w = (w1, Ok lc) →
  ∃ p node,
    locate w (LocalCacher_localName c name w) = inr p ∧
    lookup_path (w_root w) p = inr node ∧
    w1 = opened w p ∧ lc = entry_of w name node.
Proof.
  intros H. unfold LocalCacher_Get, Open in H.
  destruct (locate w _) as [e|p] eqn:Hl.
  { simpl in H. destruct e; simplify_eq/=. }
  destruct (lookup_path (w_root w) p) as [e|node] eqn:Hn.
  { simpl in H. destruct e; simplify_eq/=. }
  exists p, node.
  unfold File_Stat in H. simpl in H. rewrite lookup_insert_eq in H.
  simpl in H. rewrite Hn in H. by simplify_eq.
Qed.

(** What a failed open turns into. *)
Lemma Get_open_failure c ctx name w e :
  (Open (LocalCacher_localName c name w) w).2 = Error e →
  (LocalCacher_Get c ctx name w).2
  = Error (if IsNotExist e then ErrCacheNotFound else e).
Proof.
  intros H. unfold LocalCacher_Get.
  destruct (Open _ w) as [w1 [fd|e']]; simpl in H; simplify_eq.
  by destruct (IsNotExist e).
Qed.

Lemma Set_ok_inv c ctx name r w w1 :
  LocalCacher_Set c ctx name r w = (w1, None) →
  ∃ b pd p r1 r2,
    ReadAll r = (b, None) ∧
    locate w (Filepath.Dir (LocalCacher_localName c name w)) = inr pd ∧
    mkdir_all (w_clock w) (w_root w) pd = (r1, None) ∧
    locate w (LocalCacher_localName c name w) = inr p ∧
    write_file (w_clock w) b r1 p = inr r2 ∧
    w1 = set_root (set_root w r1) r2.
Proof.
  intros H. unfold LocalCacher_Set in H.
  destruct (ReadAll r) as [b [e|]] eqn:Hr; [simplify_eq|].
  unfold MkdirAll in H.
  destruct (locate w (Filepath.Dir _)) as [e|pd] eqn:Hd; [simplify_eq|].
  destruct (mkdir_all _ _ pd) as [r1 [e|]] eqn:Hm; [simplify_eq|].
  unfold WriteFile in H. unfold locate in H at 1. simpl in H.
  fold (locate w (LocalCacher_localName c name w)) in H.
  destruct (locate w (LocalCacher_localName c name w)) as [e|p] eqn:Hl;
    [simplify_eq|].
  destruct (write_file _ b r1 p) as [e|r2] eqn:Hw; [simplify_eq|].
  exists b, pd, p, r1, r2. by simplify_eq.
Qed.

Lemma localName_set_root c name w r :
  LocalCacher_localName c name (set_root w r) = LocalCacher_localName c name w.
Proof. done. Qed.

(** After a successful [Set] of the bytes [b], the local name holds a
    regular file with exactly these bytes and the time of the call. *)
Lemma Set_ok_file c ctx name r w w1 :
  LocalCacher_Set c ctx name r w = (w1, None) →
  ∃ p,
    locate w1 (LocalCacher_localName c name w1) = inr p ∧
    lookup_path (w_root w1) p = inr (File (ReadAll r).1 (w_clock w)).
Proof.
  intros H. destruct (Set_ok_inv _ _ _ _ _ _ H)
    as (b & pd & p & r1 & r2 & Hr & Hd & Hm & Hl & Hw & ->).
  exists p. split; [done|]. rewrite Hr. simpl.
  by apply lookup_write_file with (n := r1).
Qed.

End GetSet.

(** ** The cache contract on the local backend *)

(** Reading an entry that [Get] opened on a regular file. *)
Lemma read_opened_file name w p data mt bufsize fuel :
  lookup_path (w_root w) p = inr (File data mt) →
  (0 < bufsize)%nat → (length data < fuel)%nat →
  ∃ w', read_to_end fuel bufsize (entry_of w name (File data mt)) (opened w p)
        = Some (w', Ok data).
Proof.
  intros Hn Hb Hf.
  destruct (read_to_end_file bufsize (entry_of w name (File data mt)) data mt
              fuel (opened w p) p 0) as (w' & Hr & _); try done.
  - simpl. by rewrite lookup_insert_eq.
  - eauto.
Qed.


(** C1 (round trip): after a successful [Set] of the payload [P] under a
    name, [Get] of that name on the same cacher succeeds, and reading the
    returned entry from its start to the end of the stream yields exactly
    [P], whatever the buffer size. *)
Theorem C1_set_get_round_trip (c : LocalCacher) (ctx ctx' : Context)
  (name : string) (r : Reader) (P : list byte) (w w1 : World) :
  ReadAll r = (P, None) →
  LocalCacher_Set c ctx name r w = (w1, None) →
  ∃ w2 lc,
    LocalCacher_Get c ctx' name w1 = (w2, Ok lc) ∧
    ∀ bufsize fuel, (0 < bufsize)%nat → (length P < fuel)%nat →
      ∃ w3, read_to_end fuel bufsize lc w2 = Some (w3, Ok P).
Proof.
  intros Hr Hset.
  destruct (Set_ok_file _ _ _ _ _ _ Hset) as (p & Hl & Hn).
  rewrite Hr in Hn. simpl in Hn.
  exists (opened w1 p), (entry_of w1 name (File P (w_clock w))).
  split; [by apply Get_found|].
  intros bufsize fuel Hb Hf. by apply read_opened_file.
Qed.

Lemma C1_set_get_round_trip_witness :
  ∃ w2 lc,
    LocalCacher_Get {| Root := "/var/cache" |} background "m/@v/list"
      (LocalCacher_Set {| Root := "/var/cache" |} background "m/@v/list"
         (bytes_reader [x76; x31]%byte) empty_world).1 = (w2, Ok lc) ∧
    ∀ bufsize fuel, (0 < bufsize)%nat → (length [x76; x31]%byte < fuel)%nat →
      ∃ w3, read_to_end fuel bufsize lc w2 = Some (w3, Ok [x76; x31]%byte).
Proof.
  apply (C1_set_get_round_trip {| Root := "/var/cache" |} background
           background "m/@v/list" (bytes_reader [x76; x31]%byte)
           [x76; x31]%byte empty_world); vm_compute; reflexivity.
Defined.

Lemma mkdir_all_is_dir now p : ∀ n n',
  mkdir_all now n p = (n', None) →
  ∃ mt es, lookup_path n' p = inr (Dir mt es).
Proof.
  intros n n' H.
  enough (existsb has_nul p = false ∧ ∃ mt es, walk n' p = inr (Dir mt es))
    as (Hc & mt & es & Hw)
    by (exists mt, es; by apply lookup_path_inr).
  revert n n' H.
  induction p as [|x p IH]; intros n n' H; destruct n as [|mt es];
    simpl in *; try done.
  - simplify_eq. eauto.
  - destruct (has_nul x) eqn:Hnul; [done|].
    destruct (too_long x) eqn:Hlen; [done|].
    destruct (es !! x) as [ch|] eqn:Hx.
    + destruct (mkdir_all now ch p) as [c' r] eqn:Hm. simplify_eq.
      destruct (IH _ _ Hm) as (Hc & mt' & es' & Hw). split; [done|].
      simpl. rewrite lookup_insert_eq. eauto.
    + destruct (mkdir_all now (Dir now ∅) p) as [c' r] eqn:Hm. simplify_eq.
      destruct (IH _ _ Hm) as (Hc & mt' & es' & Hw). split; [done|].
      simpl. rewrite lookup_insert_eq. eauto.
Qed.

(** A [Set] that succeeded once succeeds again on the same name. *)
Lemma Set_again c ctx ctx' name r r' b' w w1 :
  LocalCacher_Set c ctx name r w = (w1, None) →
  ReadAll r' = (b', None) →
  ∃ w2, LocalCacher_Set c ctx' name r' w1 = (w2, None).
Proof.
  intros H Hr'. destruct (Set_ok_inv _ _ _ _ _ _ H)
    as (b & pd & p & r1 & r2 & Hr & Hd & Hm & Hl & Hw & ->).
  destruct (mkdir_all_is_dir _ _ _ _ Hm) as (mt & es & Hdir).
  destruct (write_file_keeps_dirs _ _ _ _ _ _ _ _ Hw Hdir)
    as (mt' & es' & Hdir').
  pose proof (lookup_write_file _ _ _ _ _ Hw) as Hfile.
  destruct (write_file_existing (w_clock w) b' p r2 _ _ Hfile) as [r3 Hw3].
  unfold LocalCacher_Set. rewrite Hr'. unfold MkdirAll.
  rewrite !localName_set_root.
  change (locate (set_root (set_root w r1) r2)) with (locate w).
  rewrite Hd. simpl. rewrite (mkdir_all_existing _ _ _ _ _ Hdir').
  unfold WriteFile. change (locate (set_root _ r2)) with (locate w).
  rewrite Hl. simpl. rewrite Hw3. eauto.
Qed.

(** C5 (overwrite): after a successful [Set] of [P1], a [Set] of [P2] under
    the same name succeeds too, and a following [Get] yields an entry whose
    full read is exactly [P2]: nothing of [P1] is left, whatever the two
    lengths. *)
Theorem C5_set_overwrites (c : LocalCacher) (ctx1 ctx2 ctx3 : Context)
  (name : string) (r1 r2 : Reader) (P1 P2 : list byte) (w w1 : World) :
  ReadAll r1 = (P1, None) →
  ReadAll r2 = (P2, None) →
  LocalCacher_Set c ctx1 name r1 w = (w1, None) →
  ∃ w2 w3 lc,
    LocalCacher_Set c ctx2 name r2 w1 = (w2, None) ∧
    LocalCacher_Get c ctx3 name w2 = (w3, Ok lc) ∧
    ∀ bufsize fuel, (0 < bufsize)%nat → (length P2 < fuel)%nat →
      ∃ w4, read_to_end fuel bufsize lc w3 = Some (w4, Ok P2).
Proof.
  intros Hr1 Hr2 Hset1.
  destruct (Set_again c ctx1 ctx2 name r1 r2 P2 w w1 Hset1 Hr2) as [w2 Hset2].
  destruct (Set_ok_file _ _ _ _ _ _ Hset2) as (p & Hl & Hn).
  rewrite Hr2 in Hn. simpl in Hn.
  exists w2. eexists _, _. split; [done|].
  split; [by apply Get_found with (p := p)|].
  intros bufsize fuel Hb Hf. by apply read_opened_file.
Qed.

Lemma C5_set_overwrites_witness :
  ∃ w2 w3 lc,
    LocalCacher_Set {| Root := "" |} background "a/b"
      (bytes_reader [x09]%byte)
      (LocalCacher_Set {| Root := "" |} background "a/b"
         (bytes_reader [x01; x02; x03]%byte) empty_world).1 = (w2, None) ∧
    LocalCacher_Get {| Root := "" |} background "a/b" w2 = (w3, Ok lc) ∧
    ∀ bufsize fuel, (0 < bufsize)%nat → (length [x09]%byte < fuel)%nat →
      ∃ w4, read_to_end fuel bufsize lc w3 = Some (w4, Ok [x09]%byte).
Proof.
  apply (C5_set_overwrites {| Root := "" |} background background background
           "a/b" (bytes_reader [x01; x02; x03]%byte) (bytes_reader [x09]%byte)
           [x01; x02; x03]%byte [x09]%byte empty_world);
    vm_compute; reflexivity.
Defined.

(** C8 (seek): on an entry that [Get] returned for a payload [data], a seek
    to the absolute offset [k], 0 <= k <= length of [data], succeeds, and
    reading from there to the end of the stream gives what the full read
    from offset 0 gives with its first [k] bytes removed. *)
Theorem C8_seek_then_read (c : LocalCacher) (ctx : Context) (name : string)
  (w w1 : World) (lc : localCache) (p : list string) (data : list byte)
  (mt : Z) (k : Z) :
  LocalCacher_Get c ctx name w = (w1, Ok lc) →
  locate w (LocalCacher_localName c name w) = inr p →
  lookup_path (w_root w) p = inr (File data mt) →
  0 ≤ k ≤ Z.of_nat (length data) →
  ∃ w2,
    localCache_Seek lc k 0 w1 = (w2, Ok k) ∧
    ∀ bufsize fuel, (0 < bufsize)%nat → (length data < fuel)%nat →
      ∃ w3 w4 whole,
        read_to_end fuel bufsize lc w1 = Some (w3, Ok whole) ∧
        whole = data ∧
        read_to_end fuel bufsize lc w2
        = Some (w4, Ok (drop (Z.to_nat k) whole)).
Proof.
  intros Hget Hl Hn Hk.
  rewrite (Get_found c ctx name w p _ Hl Hn) in Hget.
  injection Hget as <- <-.
  unfold localCache_Seek.
  rewrite (File_Seek_file _ k 0 _ p 0 data mt k);
    [|by simpl; rewrite lookup_insert_eq|done|lia|
     by rewrite lseek_file_within by (simpl; lia)].
  eexists. split; [reflexivity|].
  intros bufsize fuel Hb Hf.
  destruct (read_opened_file name w p data mt bufsize fuel Hn Hb Hf)
    as [w3 Hr3].
  set (lc := entry_of w name (File data mt)) in *.
  edestruct (read_to_end_file bufsize lc data mt fuel) as (w4 & Hr4 & _);
    [exact Hb| | | | |by eauto 10].
  - simpl. rewrite lookup_insert_eq. reflexivity.
  - exact Hn.
  - lia.
  - rewrite length_drop. lia.
Qed.

Lemma C8_seek_then_read_witness :
  let c := {| Root := "/r" |} in
  let data := [x0a; x0b; x0c; x0d]%byte in
  let w := (LocalCacher_Set c background "f" (bytes_reader data)
              empty_world).1 in
  ∃ w2,
    localCache_Seek (entry_of w "f" (File data 1)) 3 0 (opened w ["r"; "f"])
    = (w2, Ok 3) ∧
    ∀ bufsize fuel, (0 < bufsize)%nat → (length data < fuel)%nat →
      ∃ w3 w4 whole,
        read_to_end fuel bufsize (entry_of w "f" (File data 1))
          (opened w ["r"; "f"]) = Some (w3, Ok whole) ∧
        whole = data ∧
        read_to_end fuel bufsize (entry_of w "f" (File data 1)) w2
        = Some (w4, Ok (drop (Z.to_nat 3) whole)).
Proof.
  intros c data w.
  apply (C8_seek_then_read c background "f" w (opened w ["r"; "f"])
           (entry_of w "f" (File data 1)) ["r"; "f"] data 1 3).
  - vm_compute; reflexivity.
  - vm_compute; reflexivity.
  - vm_compute; reflexivity.
  - vm_compute. split; discriminate.
Defined.

(** C9 (entry metadata): an entry that [Get] returns is positioned at
    offset 0, its [Name] is the name given to [Get], and its [ModTime] is
    the modification time the tree held for the local name when [Get]
    opened it.  [ModTime] reads a field of the entry and no world, so no
    later read or write changes it. *)
Theorem C9_get_entry_metadata (c : LocalCacher) (ctx : Context)
  (name : string) (w w1 : World) (lc : localCache) :
  LocalCacher_Get c ctx name w = (w1, Ok lc) →
  localCache_Name lc = name ∧
  ∃ p node,
    locate w (LocalCacher_localName c name w) = inr p ∧
    lookup_path (w_root w) p = inr node ∧
    w_files w1 !! lc_file lc = Some {| of_path := p; of_offset := 0 |} ∧
    localCache_ModTime lc = fi_ModTime (node_info node).
Proof.
  intros H. destruct (Get_ok_inv _ _ _ _ _ _ H) as (p & node & Hl & Hn & -> & ->).
  split; [done|]. exists p, node. repeat split; try done.
  simpl. by rewrite lookup_insert_eq.
Qed.

Lemma C9_get_entry_metadata_witness :
  let c := {| Root := "/r" |} in
  let w := (LocalCacher_Set c background "f" (bytes_reader [x0a]%byte)
              (advance 41 empty_world)).1 in
  localCache_Name (entry_of w "f" (File [x0a]%byte 42)) = "f"%string ∧
  ∃ p node,
    locate w (LocalCacher_localName c "f" w) = inr p ∧
    lookup_path (w_root w) p = inr node ∧
    w_files (opened w ["r"; "f"]) !! lc_file (entry_of w "f" (File [x0a]%byte 42))
    = Some {| of_path := p; of_offset := 0 |} ∧
    localCache_ModTime (entry_of w "f" (File [x0a]%byte 42))
    = fi_ModTime (node_info node).
Proof.
  intros c w.
  apply (C9_get_entry_metadata c background "f" w (opened w ["r"; "f"])).
  vm_compute; reflexivity.
Defined.

(** The time [Get] reports is the time of the last successful [Set]. *)
Lemma Set_Get_ModTime c ctx ctx' name r w w1 d :
  LocalCacher_Set c ctx name r w = (w1, None) →
  ∃ w2 lc, LocalCacher_Get c ctx' name (advance d w1) = (w2, Ok lc) ∧
           localCache_ModTime lc = w_clock w.
Proof.
  intros H. destruct (Set_ok_file _ _ _ _ _ _ H) as (p & Hl & Hn).
  exists (opened (advance d w1) p),
    (entry_of (advance d w1) name (File (ReadAll r).1 (w_clock w))).
  split; [|done]. apply Get_found; [exact Hl|exact Hn].
Qed.

(** C10 (failing source): when the source ends with an error, [Set] returns
    that error and the world it returns is the world it was given: no
    directory made, no file written or truncated, so every later [Get] sees
    what it would have seen before the call. *)
Theorem C10_set_source_failure (c : LocalCacher) (ctx : Context)
  (name : string) (r : Reader) (w : World) :
  rd_end r ≠ io_EOF →
  LocalCacher_Set c ctx name r w = (w, Some (rd_end r)) ∧
  ∀ c' ctx' name',
    LocalCacher_Get c' ctx' name' (LocalCacher_Set c ctx name r w).1
    = LocalCacher_Get c' ctx' name' w.
Proof.
  intros Hne.
  assert (H : LocalCacher_Set c ctx name r w = (w, Some (rd_end r))).
  { unfold LocalCacher_Set, ReadAll. by rewrite decide_False. }
  split; [done|]. intros. by rewrite H.
Qed.

Lemma C10_set_source_failure_witness :
  let r := {| rd_chunks := [[x01; x02]%byte]; rd_end := Foreign "reset" |} in
  let w := (LocalCacher_Set {| Root := "" |} background "a/b"
              (bytes_reader [x07]%byte) empty_world).1 in
  LocalCacher_Set {| Root := "" |} background "a/b" r w
  = (w, Some (Foreign "reset")) ∧
  ∀ c' ctx' name',
    LocalCacher_Get c' ctx' name'
      (LocalCacher_Set {| Root := "" |} background "a/b" r w).1
    = LocalCacher_Get c' ctx' name' w.
Proof.
  intros r w.
  apply (C10_set_source_failure {| Root := "" |} background "a/b" r w).
  vm_compute. discriminate.
Defined.

(** C3, as stated, fails: with a context that is already cancelled, [Get]
    of a missing name still answers with the not-found sentinel, and [Set]
    still writes and reports success. *)
Lemma C3_cancelled_context_counterexample :
  ctx_Err cancelled ≠ None ∧
  (LocalCacher_Get {| Root := "/r" |} cancelled "a" empty_world).2
  = Error ErrCacheNotFound ∧
  (LocalCacher_Set {| Root := "/r" |} cancelled "a" (bytes_reader [x01]%byte)
     empty_world).2 = None ∧
  lookup_path
    (w_root (LocalCacher_Set {| Root := "/r" |} cancelled "a"
               (bytes_reader [x01]%byte) empty_world).1) ["r"; "a"]
  = inr (File [x01]%byte 1).
Proof. vm_compute. repeat split; discriminate. Qed.

(** C3 (amended): [Get] and [Set] never look at the context they are
    given: whatever its cancellation state, the returned world and the
    returned result are the same. *)
Theorem C3_context_is_ignored (c : LocalCacher) (ctx ctx' : Context)
  (name : string) (r : Reader) (w : World) :
  LocalCacher_Get c ctx name w = LocalCacher_Get c ctx' name w ∧
  LocalCacher_Set c ctx name r w = LocalCacher_Set c ctx' name r w.
Proof. split; reflexivity. Qed.

(** C6 (path translation): with an empty [Root] the local name is [Join]
    of the host's temporary directory and the name passed through
    [FromSlash]; otherwise it is [Join] of [Root] and the name, both passed
    through [FromSlash] (which leaves a path as it is on this host).  It is
    a function of the name, [Root] and the host's temporary directory alone:
    the file tree, the open files and the clock play no part, so nothing is
    checked for existence, and equal inputs give equal local names. *)
Theorem C6_local_name_translation (c : LocalCacher) (name : string)
  (w : World) :
  LocalCacher_localName c name w
  = (if decide (Root c = ""%string)
     then Filepath.Join [TempDir w; Filepath.FromSlash name]
     else Filepath.Join [Filepath.FromSlash (Root c);
                         Filepath.FromSlash name]) ∧
  Filepath.FromSlash name = name ∧
  (∀ w', TempDir w' = TempDir w →
         LocalCacher_localName c name w' = LocalCacher_localName c name w) ∧
  (∀ w', Root c ≠ ""%string →
         LocalCacher_localName c name w' = LocalCacher_localName c name w) ∧
  (∀ root files d,
     LocalCacher_localName c name
       (advance d (set_files (set_root w root) files))
     = LocalCacher_localName c name w).
Proof.
  unfold LocalCacher_localName. repeat split.
  - destruct (decide (Root c = ""%string)) as [->|Hne].
    + by rewrite decide_False by naive_solver.
    + by rewrite decide_True.
  - intros w' Ht. by rewrite Ht.
  - intros w' Hne. by rewrite !decide_True.
Qed.

(** ** Misses *)


(** Every other failure of the open is returned as it is, and is not the
    sentinel. *)
Lemma Get_other_open_failure c ctx name w e :
  (Open (LocalCacher_localName c name w) w).2 = Error e →
  IsNotExist e = false →
  (LocalCacher_Get c ctx name w).2 = Error e ∧ e ≠ ErrCacheNotFound.
Proof.
  intros H Hne. rewrite (Get_open_failure c ctx name w e H), Hne.
  split; [done|]. unfold Open in H.
  destruct (locate w _); [by simplify_eq/=|].
  destruct (lookup_path _ _); by simplify_eq/=.
Qed.

(** C2 on a name below a cached file: once "a" is cached, the name "a/b"
    has no entry in the tree and was never set, yet [Get] of it returns the
    ENOTDIR error of the open, which [os.IsNotExist] does not recognise, and
    not the sentinel.  Likewise, once "a/b" is cached, [Get] of "a" opens
    the directory and returns an entry for a name that was never set. *)
Lemma C2_get_below_cached_file :
  let c := {| Root := "/r" |} in
  let w := (LocalCacher_Set c background "a" (bytes_reader [x01]%byte)
              empty_world).1 in
  let w' := (LocalCacher_Set c background "a/b" (bytes_reader [x01]%byte)
               empty_world).1 in
  lookup_path (w_root w) ["r"; "a"; "b"] = inl ENOTDIR ∧
  (LocalCacher_Get c background "a/b" w).2
  = Error (PathError "open" ENOTDIR) ∧
  PathError "open" ENOTDIR ≠ ErrCacheNotFound ∧
  (LocalCacher_Get c background "a" w').2
  = Ok {| lc_file := 0; lc_name := "a"; lc_modTime := 1 |} ∧
  (localCache_Read {| lc_file := 0; lc_name := "a"; lc_modTime := 1 |} 8
     (LocalCacher_Get c background "a" w').1).2
  = ([], Some (PathError "read" EISDIR)).
Proof. vm_compute. repeat split; discriminate. Qed.

(** ** Splitting, joining and cleaning *)

Section Strings.
Import Filepath.
Implicit Types (s a b e : string) (l xs ys out init : list string).

Lemma split_not_nil s : split s ≠ [].
Proof.
  destruct s as [|ch s]; simpl; [done|].
  destruct (IsPathSeparator ch); [done|]. by destruct (split s).
Qed.

Lemma split_nosep e : nosep e = true → split e = [e].
Proof.
  induction e as [|ch e IH]; simpl; [done|].
  intros [Hc He]%andb_prop. apply negb_true_iff in Hc. rewrite Hc.
  by rewrite (IH He).
Qed.

Lemma split_app_sep a b :
  split (a +:+ String Separator b) = split a ++ split b.
Proof.
  induction a as [|ch a IH]; simpl; [done|].
  destruct (IsPathSeparator ch); rewrite IH; [done|].
  pose proof (split_not_nil a). by destruct (split a).
Qed.

Lemma split_join l :
  Forall (λ e, nosep e = true) l → l ≠ [] → split (join l) = l.
Proof.
  induction 1 as [|x l Hx Hl IH]; [done|]. intros _.
  destruct l as [|y l]; simpl.
  - by apply split_nosep.
  - rewrite split_app_sep, (split_nosep _ Hx). simpl. f_equal.
    by apply IH.
Qed.

Lemma split_elems_nosep s : Forall (λ e, nosep e = true) (split s).
Proof.
  induction s as [|ch s IH]; simpl; [by repeat constructor|].
  destruct (IsPathSeparator ch) eqn:Hc; [by constructor|].
  destruct (split s) as [|x xs]; [by repeat constructor; simpl; rewrite Hc|].
  inversion_clear IH. constructor; [|done]. simpl. by rewrite Hc.
Qed.

Lemma clean_step_plain r out e : plain e → clean_step r out e = e :: out.
Proof.
  intros (H1 & H2 & H3). unfold clean_step.
  by rewrite !decide_False.
Qed.

Lemma clean_elems_app r init xs ys :
  clean_elems r init (xs ++ ys) = clean_elems r (clean_elems r init xs) ys.
Proof. apply fold_left_app. Qed.

Lemma clean_elems_plain r l : ∀ init,
  Forall plain l → clean_elems r init l = rev l ++ init.
Proof.
  induction l as [|x l IH]; intros init Hl; [done|].
  inversion_clear Hl. simpl. unfold clean_elems in *. simpl.
  rewrite clean_step_plain by done. rewrite IH by done.
  by rewrite <- app_assoc.
Qed.

(** What [Clean] keeps comes from its input, is neither empty nor ".", and
    is ".." only in a path that is not rooted. *)
Lemma clean_step_elem r out e x :
  x ∈ clean_step r out e →
  x ∈ out ∨ (x = e ∧ e ≠ ""%string ∧ e ≠ "."%string ∧
             (e = ".."%string → r = false)).
Proof.
  unfold clean_step. repeat case_decide; subst; try by auto.
  - destruct out as [|top below].
    + destruct r; [by intros ?%elem_of_nil|].
      intros ->%list_elem_of_singleton. by auto 10.
    + case_decide.
      * intros [->| ?]%elem_of_cons; [|by auto].
        subst. left. by left.
      * intros ?. left. by right.
  - intros [->| ?]%elem_of_cons; [|by auto]. right. naive_solver.
Qed.

Lemma clean_elems_elem r xs : ∀ init x,
  x ∈ clean_elems r init xs →
  x ∈ init ∨ (x ∈ xs ∧ x ≠ ""%string ∧ x ≠ "."%string ∧
              (x = ".."%string → r = false)).
Proof.
  induction xs as [|e xs IH]; intros init x Hx; [by left|].
  apply IH in Hx as [Hx|Hx].
  - apply clean_step_elem in Hx as [Hx|(-> & ?)]; [by left|].
    right. split; [by left|done].
  - right. destruct Hx as [? ?]. split; [by right|done].
Qed.

Lemma append_cons ch a b : String ch a +:+ b = String ch (a +:+ b).
Proof. done. Qed.

Lemma append_assoc a b s : (a +:+ b) +:+ s = a +:+ (b +:+ s).
Proof.
  induction a as [|ch a IH]; [done|]. rewrite !append_cons. by rewrite IH.
Qed.

Lemma join_snoc l e :
  l ≠ [] → join (l ++ [e]) = join l +:+ String Separator e.
Proof.
  induction l as [|x l IH]; [done|]. intros _.
  destruct l as [|y l]; [done|].
  change (join ((x :: y :: l) ++ [e]))
    with (x +:+ String Separator (join ((y :: l) ++ [e]))).
  rewrite IH by done.
  change (join (x :: y :: l)) with (x +:+ String Separator (join (y :: l))).
  generalize (join (y :: l)). intros j.
  by rewrite append_assoc.
Qed.

Lemma rooted_app a b : a ≠ ""%string → rooted (a +:+ b) = rooted a.
Proof. by destruct a. Qed.

Lemma rooted_join x l :
  x ≠ ""%string → nosep x = true → rooted (join (x :: l)) = false.
Proof.
  intros Hx Hn. destruct x as [|ch x]; [done|].
  simpl in Hn. apply andb_prop in Hn as [Hc _]. apply negb_true_iff in Hc.
  destruct l; simpl; by rewrite Hc.
Qed.

Lemma abs_render r out cwd :
  Forall kept out →
  abs cwd (render r out) = rev (clean_elems true (start r cwd) out).
Proof.
  intros Hout. unfold abs, render. destruct r.
  - simpl. change (clean_elems true (start true cwd)
                     (EmptyString :: split (join out)))
      with (clean_elems true [] (split (join out))).
    destruct out as [|x out]; [done|].
    rewrite split_join; [done| |done].
    eapply Forall_impl; [exact Hout|]. by intros ? [? ?].
  - destruct out as [|x out]; [done|].
    inversion Hout as [|? ? [Hn Hx] Hrest]; subst.
    rewrite rooted_join by done.
    rewrite split_join; [done| |done].
    eapply Forall_impl; [exact Hout|]. by intros ? [? ?].
Qed.

Lemma clean_elems_kept r s x :
  x ∈ clean_elems r [] (split s) → kept x ∧ (x = ".."%string → r = false)
                                    ∧ x ≠ "."%string.
Proof.
  intros [[]%elem_of_nil|(Hin & H1 & H2 & H3)]%clean_elems_elem.
  pose proof (split_elems_nosep s) as Hs.
  rewrite Forall_forall in Hs. repeat split; auto.
Qed.

Lemma clean_again xs : ∀ r st,
  (r = true → st = []) →
  clean_elems true st (rev (clean_elems r [] xs)) = clean_elems true st xs.
Proof.
  induction xs as [|x xs IH] using rev_ind; intros r st Hst; [done|].
  rewrite !clean_elems_app.
  change (clean_elems r (clean_elems r [] xs) [x])
    with (clean_step r (clean_elems r [] xs) x).
  change (clean_elems true (clean_elems true st xs) [x])
    with (clean_step true (clean_elems true st xs) x).
  rewrite <- (IH r st Hst).
  assert (Helem : ∀ y, y ∈ clean_elems r [] xs →
                       y ≠ ""%string ∧ y ≠ "."%string ∧
                       (y = ".."%string → r = false)).
  { intros y [[]%elem_of_nil|(_ & ? & ? & ?)]%clean_elems_elem. done. }
  destruct (clean_elems r [] xs) as [|top below] eqn:HA.
  - unfold clean_step at 1. repeat case_decide; subst; try done.
    destruct r; [|done]. by rewrite (Hst eq_refl).
  - destruct (Helem top ltac:(by left)) as (Ht1 & Ht2 & Ht3).
    unfold clean_step at 1. repeat case_decide; subst; try done.
    + change (rev (".."%string :: ".."%string :: below))
        with (rev (".."%string :: below) ++ [".."%string]).
      by rewrite clean_elems_app.
    + simpl rev at 2. rewrite clean_elems_app.
      change (clean_elems true (clean_elems true st (rev below)) [top])
        with (clean_step true (clean_elems true st (rev below)) top).
      rewrite (clean_step_plain true _ top) by done.
      unfold clean_step. rewrite !decide_False by done.
      rewrite decide_True by done. by rewrite decide_False.
    + change (rev (x :: top :: below)) with (rev (top :: below) ++ [x]).
      by rewrite clean_elems_app.
Qed.

(** Cleaning a path does not change the location it names. *)
Lemma abs_Clean cwd s : abs cwd (Clean s) = abs cwd s.
Proof.
  unfold Clean. rewrite abs_render.
  - unfold abs at 1. f_equal. apply clean_again.
    by intros ->.
  - apply Forall_forall. intros x Hx. apply list_elem_of_In, in_rev in Hx.
    apply list_elem_of_In in Hx. by apply clean_elems_kept in Hx as [? _].
Qed.

Lemma Clean_not_empty s : Clean s ≠ ""%string.
Proof.
  unfold Clean, render. destruct (rooted s); [done|].
  destruct (rev _) as [|x out] eqn:Hout; [done|].
  assert (Hx : x ∈ clean_elems false [] (split s)).
  { apply list_elem_of_In, in_rev. rewrite Hout. by left. }
  apply clean_elems_kept in Hx as [[_ Hx] _].
  destruct out; [done|]. by destruct x.
Qed.

Lemma upto_last_sep_nosep e : nosep e = true → upto_last_sep e = ""%string.
Proof.
  induction e as [|ch e IH]; [done|]. simpl.
  intros [Hc He]%andb_prop. apply negb_true_iff in Hc.
  by rewrite (IH He), Hc.
Qed.

Lemma upto_last_sep_app a e :
  nosep e = true →
  upto_last_sep (a +:+ String Separator e) = a +:+ String Separator "".
Proof.
  intros He. induction a as [|ch a IH]; simpl.
  - by rewrite (upto_last_sep_nosep e He).
  - rewrite IH. by destruct a.
Qed.

Lemma abs_trailing_sep cwd y :
  y ≠ ""%string → abs cwd (y +:+ String Separator "") = abs cwd y.
Proof.
  intros Hy. unfold abs. rewrite rooted_app by done.
  rewrite split_app_sep. by rewrite clean_elems_app.
Qed.

Lemma render_not_empty r out : Forall kept out → render r out ≠ ""%string.
Proof.
  destruct r; [done|]. destruct out as [|x out]; [done|].
  intros [[_ Hx] _]%Forall_cons. simpl. destruct out; [done|]. by destruct x.
Qed.

(** The directory of a cleaned path names the location of all but its last
    element. *)
Lemma abs_Dir_render cwd r pre e :
  Forall kept (pre ++ [e]) →
  abs cwd (Dir (render r (pre ++ [e])))
  = rev (clean_elems true (start r cwd) pre).
Proof.
  intros [Hpre [[He _] _]%Forall_cons]%Forall_app.
  unfold Dir. rewrite abs_Clean.
  destruct pre as [|x pre].
  - destruct r.
    + change (render true ([] ++ [e])) with (""%string +:+ String Separator e).
      by rewrite upto_last_sep_app.
    + change (render false ([] ++ [e])) with e.
      by rewrite upto_last_sep_nosep.
  - assert (Hrender : render r ((x :: pre) ++ [e])
                      = render r (x :: pre) +:+ String Separator e).
    { unfold render. rewrite join_snoc by done. destruct r; [done|].
      by destruct pre. }
    rewrite Hrender, upto_last_sep_app by done.
    rewrite abs_trailing_sep by (by apply render_not_empty).
    by apply abs_render.
Qed.

End Strings.

(** ** Where a name is stored *)

Section LocalNames.
Import Filepath.
Implicit Types (c : LocalCacher) (w : World) (segs : list string).

Lemma root_text_not_empty c w : root_text c w ≠ ""%string.
Proof.
  unfold root_text, TempDir. repeat case_decide; done.
Qed.

Lemma localName_Clean c name w :
  LocalCacher_localName c name w
  = Clean (root_text c w +:+ String Separator name).
Proof.
  pose proof (root_text_not_empty c w) as Hne. revert Hne.
  unfold LocalCacher_localName, root_text.
  change (FromSlash name) with name. change (FromSlash (Root c)) with (Root c).
  destruct (decide (Root c = ""%string)) as [Heq|Hne]; intros Hr.
  - rewrite decide_False by naive_solver. simpl. by rewrite decide_False.
  - rewrite decide_True by done. simpl. by rewrite decide_False.
Qed.

Lemma segment_kept e : segment e → kept e.
Proof. intros [(? & ? & ?) ?]. by split. Qed.

Lemma segments_split segs :
  Forall segment segs → segs ≠ [] → split (join segs) = segs.
Proof.
  intros Hs Hne. apply split_join; [|done].
  eapply Forall_impl; [exact Hs|]. by intros ? [_ ?].
Qed.

Lemma segments_plain segs : Forall segment segs → Forall plain segs.
Proof. intros Hs. eapply Forall_impl; [exact Hs|]. by intros ? [? _]. Qed.

(** A name made of segments is stored at these segments below the root
    directory. *)
Lemma locate_localName c w segs :
  Forall segment segs → segs ≠ [] →
  locate w (LocalCacher_localName c (join segs) w) = inr (root_dir c w ++ segs).
Proof.
  intros Hs Hne. unfold locate. rewrite localName_Clean.
  rewrite decide_False by apply Clean_not_empty. f_equal.
  rewrite abs_Clean. unfold root_dir, abs.
  rewrite rooted_app by apply root_text_not_empty.
  rewrite split_app_sep, segments_split by done.
  rewrite clean_elems_app, clean_elems_plain by by apply segments_plain.
  by rewrite rev_app_distr, rev_involutive.
Qed.

(** [Set] makes the directories down to all but the last segment. *)
Lemma locate_Dir_localName c w segs e :
  Forall segment (segs ++ [e]) →
  locate w (Dir (LocalCacher_localName c (join (segs ++ [e])) w))
  = inr (root_dir c w ++ segs).
Proof.
  intros Hs. unfold locate.
  rewrite decide_False by apply Clean_not_empty. f_equal.
  rewrite localName_Clean. unfold Clean at 1.
  rewrite rooted_app by apply root_text_not_empty.
  set (r := rooted (root_text c w)).
  rewrite split_app_sep, segments_split by (done || by destruct segs).
  rewrite clean_elems_app, clean_elems_plain by by apply segments_plain.
  rewrite rev_app_distr, rev_involutive.
  set (CR := clean_elems r [] (split (root_text c w))).
  rewrite app_assoc, abs_Dir_render.
  - apply Forall_app in Hs as [Hs _].
    rewrite clean_elems_app, clean_elems_plain by by apply segments_plain.
    rewrite rev_app_distr, rev_involutive. f_equal.
    unfold root_dir, abs. fold r. f_equal. subst CR.
    apply clean_again. by intros ->.
  - rewrite <- app_assoc. apply Forall_app. split.
    + apply Forall_forall. intros x Hx.
      apply list_elem_of_In, in_rev, list_elem_of_In in Hx.
      by apply clean_elems_kept in Hx as [? _].
    + eapply Forall_impl; [exact Hs|]. apply segment_kept.
Qed.

End LocalNames.

(** ** Directories made on the way *)

Section Directories.
Implicit Types (n : Node) (p q : list string).

Lemma valid_names_clean p : Forall valid_name p → existsb has_nul p = false.
Proof.
  induction 1 as [|x p [Hx _] _ IH]; [done|]. simpl. by rewrite Hx, IH.
Qed.

Lemma lookup_path_ENOENT n p :
  lookup_path n p = inl ENOENT →
  existsb has_nul p = false ∧ walk n p = inl ENOENT.
Proof. unfold lookup_path. by destruct (existsb has_nul p). Qed.

Lemma mkdir_all_empty now p :
  Forall valid_name p →
  ∃ n', mkdir_all now (Dir now ∅) p = (n', None) ∧
        walk n' p = inr (Dir now ∅).
Proof.
  induction 1 as [|x p [Hnul Hlen] _ (c' & Hm & Hl)]; simpl; [eauto|].
  rewrite Hnul, Hlen, lookup_empty, Hm. eexists. split; [done|].
  simpl. by rewrite ?Hlen, lookup_insert_eq.
Qed.

(** [mkdir_all] of a location that is absent below directories, and whose
    elements are valid names, succeeds and leaves a new, empty directory
    there. *)
Lemma mkdir_all_absent now p : ∀ n,
  Forall valid_name p →
  lookup_path n p = inl ENOENT →
  ∃ n', mkdir_all now n p = (n', None) ∧ lookup_path n' p = inr (Dir now ∅).
Proof.
  intros n Hv [Hc H]%lookup_path_ENOENT.
  enough (∃ n', mkdir_all now n p = (n', None) ∧ walk n' p = inr (Dir now ∅))
    as (n' & Hm & Hw) by (exists n'; by rewrite lookup_path_clean).
  clear Hc. revert n H.
  induction Hv as [|x p [Hnul Hlen] Hv IH]; intros n H; [done|].
  destruct n as [|mt es]; [done|]. simpl in *. rewrite Hnul, Hlen in *.
  destruct (es !! x) as [ch|] eqn:Hx.
  - destruct (IH _ H) as (c' & -> & Hl). eexists. split; [done|].
    simpl. by rewrite ?Hlen, lookup_insert_eq.
  - destruct (mkdir_all_empty now p Hv) as (c' & -> & Hl).
    eexists. split; [done|]. simpl. by rewrite ?Hlen, lookup_insert_eq.
Qed.

Lemma create_new now data e p : ∀ n mt es,
  walk n p = inr (Dir mt es) → es !! e = None → too_long e = false →
  ∃ n', create now data n (p ++ [e]) = inr n'.
Proof.
  induction p as [|x p IH]; intros n mt0 es0 H He Hlen; simpl in *.
  - simplify_eq. rewrite Hlen, He. eauto.
  - destruct n as [|mt es]; [done|].
    destruct (too_long x); [done|].
    destruct (es !! x) as [ch|] eqn:Hx; [|done].
    destruct (IH _ _ _ H He Hlen) as [c' ->]. eauto.
Qed.

(** Writing a new element with a valid name into an existing directory
    succeeds. *)
Lemma write_file_new now data e p n mt es :
  lookup_path n p = inr (Dir mt es) → es !! e = None → valid_name e →
  ∃ n', write_file now data n (p ++ [e]) = inr n'.
Proof.
  intros [Hc H]%lookup_path_inr He [Hnul Hlen]. unfold write_file.
  rewrite existsb_app, Hc. simpl. rewrite Hnul. simpl.
  by eapply create_new.
Qed.


End Directories.




(** ** Two cachers on one host *)

Section Isolation.
Implicit Types (n : Node) (p q : list string).

Lemma walk_empty_dir now q :
  match walk (Dir now ∅) q with
  | inr (File d t) => Some (d, t)
  | _ => None
  end = None.
Proof.
  destruct q as [|y q]; [done|]. simpl. destruct (too_long y); [done|].
  by rewrite lookup_empty.
Qed.

Lemma mkdir_all_walk_file now p : ∀ n n' r q,
  mkdir_all now n p = (n', r) →
  match walk n' q with
  | inr (File d t) => Some (d, t)
  | _ => None
  end =
  match walk n q with
  | inr (File d t) => Some (d, t)
  | _ => None
  end.
Proof.
  induction p as [|x p IH]; intros n n' r q H; destruct n as [|mt es];
    simpl in H; try by simplify_eq.
  destruct (has_nul x); [by simplify_eq|].
  destruct (too_long x); [by simplify_eq|].
  destruct (es !! x) as [ch|] eqn:Hx.
  - destruct (mkdir_all now ch p) as [c' r'] eqn:Hm. simplify_eq.
    destruct q as [|y q]; [done|]. simpl.
    destruct (too_long y); [done|].
    destruct (decide (x = y)) as [->|Hne].
    + rewrite lookup_insert_eq, Hx. apply (IH _ _ _ q Hm).
    + by rewrite lookup_insert_ne.
  - destruct (mkdir_all now (Dir now ∅) p) as [c' r'] eqn:Hm.
    simplify_eq. destruct q as [|y q]; [done|]. simpl.
    destruct (too_long y); [done|].
    destruct (decide (x = y)) as [->|Hne].
    + rewrite lookup_insert_eq, Hx.
      pose proof (IH _ _ _ q Hm) as Hq. rewrite walk_empty_dir in Hq.
      exact Hq.
    + by rewrite lookup_insert_ne.
Qed.

(** [mkdir_all] neither adds, removes nor changes a regular file, whether
    it ends well or stops on the way. *)
Lemma mkdir_all_file_at now p n n' r q :
  mkdir_all now n p = (n', r) → file_at n' q = file_at n q.
Proof.
  intros H. unfold file_at, lookup_path.
  destruct (existsb has_nul q); [done|]. by eapply mkdir_all_walk_file.
Qed.

Lemma create_walk_file now data p : ∀ n n' q,
  create now data n p = inr n' → q ≠ p →
  match walk n' q with
  | inr (File d t) => Some (d, t)
  | _ => None
  end =
  match walk n q with
  | inr (File d t) => Some (d, t)
  | _ => None
  end.
Proof.
  induction p as [|x p IH]; intros n n' q H Hq; simpl in H.
  - destruct n; [|done]. simplify_eq. by destruct q.
  - destruct n as [|mt es]; [done|].
    destruct (too_long x); [done|].
    destruct (es !! x) as [ch|] eqn:Hx.
    + destruct (create now data ch p) as [?|c'] eqn:Hw; [done|].
      simplify_eq. destruct q as [|y q]; [done|]. simpl.
      destruct (too_long y); [done|].
      destruct (decide (x = y)) as [->|Hne].
      * rewrite lookup_insert_eq, Hx. apply (IH _ _ q Hw). congruence.
      * by rewrite lookup_insert_ne.
    + destruct p; [|done]. simplify_eq.
      destruct q as [|y q]; [done|]. simpl.
      destruct (too_long y); [done|].
      destruct (decide (x = y)) as [->|Hne].
      * rewrite lookup_insert_eq, Hx. by destruct q.
      * by rewrite lookup_insert_ne.
Qed.

(** A write changes the regular file at its own location only. *)
Lemma write_file_file_at now data p n n' q :
  write_file now data n p = inr n' → q ≠ p → file_at n' q = file_at n q.
Proof.
  unfold write_file. destruct (existsb has_nul p); [done|].
  intros H Hq. unfold file_at, lookup_path.
  destruct (existsb has_nul q); [done|]. by eapply create_walk_file.
Qed.

(** Whatever [Set] does, regular files away from its local name stay as
    they were. *)
Lemma Set_file_at_other c ctx name r w p q :
  locate w (LocalCacher_localName c name w) = inr p → q ≠ p →
  file_at (w_root (LocalCacher_Set c ctx name r w).1) q = file_at (w_root w) q.
Proof.
  intros Hl Hq. unfold LocalCacher_Set.
  destruct (ReadAll r) as [b [err|]]; [done|]. unfold MkdirAll.
  destruct (locate w (Filepath.Dir _)) as [?|pd]; [done|].
  destruct (mkdir_all _ _ pd) as [r1 [?|]] eqn:Hm.
  { by apply mkdir_all_file_at with (q := q) in Hm. }
  unfold WriteFile. change (locate (set_root w r1)) with (locate w).
  rewrite Hl. simpl.
  destruct (write_file _ b r1 p) as [?|r2] eqn:Hw; simpl.
  - by apply mkdir_all_file_at with (q := q) in Hm.
  - rewrite (write_file_file_at _ _ _ _ _ q Hw Hq).
    by apply mkdir_all_file_at with (q := q) in Hm.
Qed.

Lemma Set_keeps_host c ctx name r w :
  w_cwd (LocalCacher_Set c ctx name r w).1 = w_cwd w ∧
  w_env (LocalCacher_Set c ctx name r w).1 = w_env w.
Proof.
  unfold LocalCacher_Set.
  destruct (ReadAll r) as [b [err|]]; [done|]. unfold MkdirAll.
  destruct (locate w (Filepath.Dir _)) as [?|pd]; [done|].
  destruct (mkdir_all _ _ pd) as [r1 [?|]]; [done|].
  unfold WriteFile. destruct (locate _ _) as [?|p]; [done|].
  by destruct (write_file _ b _ p).
Qed.

(** An entry over a cached file: [Get] returns it, with the file's time
    and, on a full read, the file's bytes. *)
Lemma Get_cached c ctx name w data mt :
  cached c name w = Some (data, mt) →
  ∃ w1 lc,
    LocalCacher_Get c ctx name w = (w1, Ok lc) ∧
    localCache_ModTime lc = mt ∧
    ∀ bufsize fuel, (0 < bufsize)%nat → (length data < fuel)%nat →
      ∃ w2, read_to_end fuel bufsize lc w1 = Some (w2, Ok data).
Proof.
  unfold cached, file_at. intros H.
  destruct (locate w _) as [?|p] eqn:Hl; [done|].
  destruct (lookup_path (w_root w) p) as [?|[d t|]] eqn:Hn; simplify_eq.
  eexists _, _. split; [by apply Get_found with (p := p)|].
  split; [done|]. intros. by apply read_opened_file.
Qed.

End Isolation.

(** C4, as stated, fails twice over.  The roots "/a" and "/b" differ, yet
    the name "../c" is the same file "/c" for both cachers: what one sets,
    the other gets.  And the roots "/x" and "/x/" differ as strings but name
    one directory. *)
Lemma C4_root_isolation_counterexample :
  let ca := {| Root := "/a" |} in
  let cb := {| Root := "/b" |} in
  let w1 := (LocalCacher_Set ca background "../c" (bytes_reader [x07]%byte)
               empty_world).1 in
  let w2 := (LocalCacher_Set {| Root := "/x" |} background "f"
               (bytes_reader [x08]%byte) empty_world).1 in
  Root ca ≠ Root cb ∧
  (LocalCacher_Get cb background "../c" empty_world).2
  = Error ErrCacheNotFound ∧
  cached cb "../c" w1 = Some ([x07]%byte, 1) ∧
  (∃ lc w3 w4,
     LocalCacher_Get cb background "../c" w1 = (w3, Ok lc) ∧
     read_to_end 2 8 lc w3 = Some (w4, Ok [x07]%byte)) ∧
  "/x"%string ≠ "/x/"%string ∧
  cached {| Root := "/x/" |} "f" empty_world = None ∧
  cached {| Root := "/x/" |} "f" w2 = Some ([x08]%byte, 1).
Proof.
  vm_compute. repeat split; try discriminate.
  eexists _, _, _. split; reflexivity.
Qed.

(** C4 (amended): for two cachers whose roots name different directories
    and a name made of segments (no empty, "." or ".." segment), a [Set]
    through the first, whatever its outcome, leaves what is cached under
    that name through the second exactly as it was: same bytes and
    modification time, or nothing as before. *)
Theorem C4_roots_isolated (c1 c2 : LocalCacher) (ctx : Context)
  (segs : list string) (r : Reader) (w : World) :
  Forall segment segs → segs ≠ [] →
  root_dir c1 w ≠ root_dir c2 w →
  cached c2 (Filepath.join segs)
    (LocalCacher_Set c1 ctx (Filepath.join segs) r w).1
  = cached c2 (Filepath.join segs) w.
Proof.
  intros Hs Hne Hroots.
  set (w1 := (LocalCacher_Set c1 ctx (Filepath.join segs) r w).1).
  destruct (Set_keeps_host c1 ctx (Filepath.join segs) r w) as [Hcwd Henv].
  fold w1 in Hcwd, Henv.
  assert (Hdir : root_dir c2 w1 = root_dir c2 w).
  { unfold root_dir, root_text, TempDir, Getenv. by rewrite Hcwd, Henv. }
  unfold cached. rewrite !locate_localName by done. rewrite Hdir.
  apply Set_file_at_other with (p := root_dir c1 w ++ segs).
  - by apply locate_localName.
  - intros Heq. apply Hroots. symmetry. by eapply app_inv_tail.
Qed.

Lemma C4_roots_isolated_witness :
  cached {| Root := "/srv/two" |} (Filepath.join ["m"%string; "list"%string])
    (LocalCacher_Set {| Root := "/srv/one" |} background
       (Filepath.join ["m"%string; "list"%string])
       (bytes_reader [x01]%byte) empty_world).1
  = cached {| Root := "/srv/two" |}
      (Filepath.join ["m"%string; "list"%string]) empty_world.
Proof.
  apply (C4_roots_isolated {| Root := "/srv/one" |} {| Root := "/srv/two" |}
           background ["m"%string; "list"%string] (bytes_reader [x01]%byte)
           empty_world).
  - repeat constructor; done.
  - done.
  - vm_compute. discriminate.
Defined.

(** ** Further properties of the backend *)



(** Any failure of the open that [os.IsNotExist] does not recognise comes
    back from [Get] as it is, and it is never the not-found sentinel. *)
Theorem Get_returns_other_open_failures (c : LocalCacher) (ctx : Context)
  (name : string) (w : World) (e : error) :
  (Open (LocalCacher_localName c name w) w).2 = Error e →
  IsNotExist e = false →
  (LocalCacher_Get c ctx name w).2 = Error e ∧ e ≠ ErrCacheNotFound.
Proof. apply Get_other_open_failure. Qed.

Lemma Get_returns_other_open_failures_witness :
  let w := (LocalCacher_Set {| Root := "/r" |} background "a"
              (bytes_reader [x01]%byte) empty_world).1 in
  (LocalCacher_Get {| Root := "/r" |} background "a/b" w).2
  = Error (PathError "open" ENOTDIR) ∧
  PathError "open" ENOTDIR ≠ ErrCacheNotFound.
Proof.
  intros w.
  apply (Get_returns_other_open_failures {| Root := "/r" |} background "a/b"
           w (PathError "open" ENOTDIR)); vm_compute; reflexivity.
Defined.

(** The time an entry reports is the time of the last successful [Set] of
    its name, however much later [Get] is called. *)
Theorem Get_reports_time_of_Set (c : LocalCacher) (ctx ctx' : Context)
  (name : string) (r : Reader) (w w1 : World) (d : Z) :
  LocalCacher_Set c ctx name r w = (w1, None) →
  ∃ w2 lc, LocalCacher_Get c ctx' name (advance d w1) = (w2, Ok lc) ∧
           localCache_ModTime lc = w_clock w.
Proof. apply Set_Get_ModTime. Qed.

Lemma Get_reports_time_of_Set_witness :
  ∃ w2 lc,
    LocalCacher_Get {| Root := "" |} background "m"
      (advance 100 (LocalCacher_Set {| Root := "" |} background "m"
                      (bytes_reader [x01]%byte) empty_world).1)
    = (w2, Ok lc) ∧
    localCache_ModTime lc = w_clock empty_world.
Proof.
  apply (Get_reports_time_of_Set {| Root := "" |} background background "m"
           (bytes_reader [x01]%byte) empty_world).
  vm_compute; reflexivity.
Defined.

(** [ModTime] is a snapshot: a [Set] of the same name at a later time
    changes the time the open file itself reports, and the bytes a read
    gives, but not the time the entry reports. *)
Example ModTime_is_a_snapshot :
  let c := {| Root := "/r" |} in
  let w1 := (LocalCacher_Set c background "f" (bytes_reader [x01]%byte)
               empty_world).1 in
  let lc := entry_of w1 "f" (File [x01]%byte 1) in
  let w2 := (LocalCacher_Get c background "f" w1).1 in
  let w3 := (LocalCacher_Set c background "f" (bytes_reader [x02; x03]%byte)
               (advance 9 w2)).1 in
  LocalCacher_Get c background "f" w1 = (w2, Ok lc) ∧
  fi_ModTime <$> (match File_Stat (lc_file lc) w3 with
                  | Ok fi => Some fi
                  | Error _ => None
                  end) = Some 10 ∧
  (snd <$> read_to_end 4 8 lc w3) = Some (Ok [x02; x03]%byte) ∧
  localCache_ModTime lc = 1.
Proof. vm_compute. auto. Qed.

(** Where a name is stored: for a name made of segments, the local name
    names the location of these segments below the root directory, and
    [Set] makes the directories down to the location of all but the
    last. *)
Theorem local_name_location (c : LocalCacher) (w : World)
  (segs : list string) (e : string) :
  Forall segment (segs ++ [e]) →
  locate w (LocalCacher_localName c (Filepath.join (segs ++ [e])) w)
  = inr (root_dir c w ++ segs ++ [e]) ∧
  locate w (Filepath.Dir
              (LocalCacher_localName c (Filepath.join (segs ++ [e])) w))
  = inr (root_dir c w ++ segs).
Proof.
  intros Hs. split.
  - apply locate_localName; [done|]. by destruct segs.
  - by apply locate_Dir_localName.
Qed.

Lemma local_name_location_witness :
  let w := {| w_root := Dir 0 ∅; w_cwd := ["home"%string; "u"%string];
              w_env := ∅; w_clock := 1; w_files := ∅;
              w_closed := ∅; w_maxbytes := MaxInt64;
              w_lseek := λ _ _ _ _, inl EINVAL |} in
  locate w (LocalCacher_localName {| Root := "../cache/./go" |}
              (Filepath.join (["m"%string; "@v"%string] ++ ["list"%string])) w)
  = inr (root_dir {| Root := "../cache/./go" |} w
         ++ ["m"%string; "@v"%string] ++ ["list"%string]) ∧
  locate w (Filepath.Dir
              (LocalCacher_localName {| Root := "../cache/./go" |}
                 (Filepath.join (["m"%string; "@v"%string]
                                 ++ ["list"%string])) w))
  = inr (root_dir {| Root := "../cache/./go" |} w
         ++ ["m"%string; "@v"%string]).
Proof.
  intros w.
  apply (local_name_location {| Root := "../cache/./go" |} w
           ["m"%string; "@v"%string] "list"%string).
  repeat constructor; done.
Defined.

(** [Close] releases the handle of an entry: it succeeds once and does not
    touch the file tree; after it reading (into a buffer of any size),
    seeking and closing again all fail with the closed-file error, wrapped
    in a path error with the name of the operation.  The entry stays
    closed: a later [Get] returns an entry on another handle, and the
    closed one fails as before. *)
Theorem Close_releases_entry (c c' : LocalCacher) (ctx ctx' : Context)
  (name name' : string) (w w1 w3 : World) (lc lc' : localCache) :
  LocalCacher_Get c ctx name w = (w1, Ok lc) →
  LocalCacher_Get c' ctx' name' (localCache_Close lc w1).1 = (w3, Ok lc') →
  let w2 := (localCache_Close lc w1).1 in
  localCache_Close lc w1 = (w2, None) ∧
  w_root w2 = w_root w ∧
  lc_file lc' ≠ lc_file lc ∧
  ∀ wc, wc = w2 ∨ wc = w3 →
    (∀ n, localCache_Read lc n wc
          = (wc, ([], Some (PathError "read" ErrClosed)))) ∧
    (∀ off whence, localCache_Seek lc off whence wc
                   = (wc, Error (PathError "seek" ErrClosed))) ∧
    localCache_Close lc wc = (wc, Some (PathError "close" ErrClosed)).
Proof.
  intros H H'.
  destruct (Get_ok_inv _ _ _ _ _ _ H) as (p & node & _ & _ & -> & ->).
  assert (Hclose : localCache_Close (entry_of w name node) (opened w p)
                   = ((localCache_Close (entry_of w name node)
                         (opened w p)).1, None)).
  { unfold localCache_Close, File_Close. simpl.
    by rewrite lookup_insert_eq. }
  intros w2. split; [exact Hclose|].
  assert (Hfiles : w_files w2 = delete (new_handle w) (w_files (opened w p))
                   ∧ new_handle w ∈ w_closed w2 ∧ w_root w2 = w_root w).
  { subst w2. unfold localCache_Close, File_Close. simpl.
    rewrite lookup_insert_eq. simpl. split; [done|]. split; [|done].
    set_solver. }
  destruct Hfiles as (Hf2 & Hcl & Hroot). split; [exact Hroot|].
  destruct (Get_ok_inv _ _ _ _ _ _ H') as (p' & node' & _ & _ & -> & ->).
  fold w2. simpl lc_file.
  assert (Hne : new_handle w2 ≠ new_handle w).
  { intros Heq. unfold new_handle at 1 in Heq.
    pose proof (is_fresh (dom (w_files w2) ∪ w_closed w2)) as Hfresh.
    rewrite Heq in Hfresh. set_solver. }
  split; [exact Hne|].
  assert (Hgone : ∀ wc, wc = w2 ∨ wc = opened w2 p' →
                        w_files wc !! new_handle w = None).
  { intros wc [->| ->].
    - rewrite Hf2. apply lookup_delete_eq.
    - simpl. rewrite lookup_insert_ne by done. rewrite Hf2.
      apply lookup_delete_eq. }
  intros wc Hwc. specialize (Hgone wc Hwc).
  unfold localCache_Read, localCache_Seek, localCache_Close,
    File_Read, File_Seek, File_Close. simpl lc_file.
  by rewrite Hgone.
Qed.

Lemma Close_releases_entry_witness :
  let c := {| Root := "/r" |} in
  let w := (LocalCacher_Set c background "f" (bytes_reader [x01]%byte)
              empty_world).1 in
  let lc := entry_of w "f" (File [x01]%byte 1) in
  let w1 := opened w ["r"%string; "f"%string] in
  let w2 := (localCache_Close lc w1).1 in
  let w3 := opened w2 ["r"%string; "f"%string] in
  let lc' := entry_of w2 "f" (File [x01]%byte 1) in
  localCache_Close lc w1 = (w2, None) ∧
  w_root w2 = w_root w ∧
  lc_file lc' ≠ lc_file lc ∧
  ∀ wc, wc = w2 ∨ wc = w3 →
    (∀ n, localCache_Read lc n wc
          = (wc, ([], Some (PathError "read" ErrClosed)))) ∧
    (∀ off whence, localCache_Seek lc off whence wc
                   = (wc, Error (PathError "seek" ErrClosed))) ∧
    localCache_Close lc wc = (wc, Some (PathError "close" ErrClosed)).
Proof.
  intros c w lc w1 w2 w3 lc'.
  apply (Close_releases_entry c c background background "f" "f" w w1 w3
           lc lc'); vm_compute; reflexivity.
Defined.

(** ** Misses after a history of sets *)

Section History.
Implicit Types (n : Node) (p q base : list string) (c : LocalCacher)
  (w : World).

(** On a path of valid names the lookup fails for want of an entry or of a
    directory only. *)
Lemma lookup_path_errno n p e :
  Forall valid_name p →
  lookup_path n p = inl e → e = ENOENT ∨ e = ENOTDIR.
Proof.
  intros Hv. rewrite lookup_path_clean by by apply valid_names_clean.
  revert n. induction Hv as [|x p [_ Hlen] _ IH]; intros n H; [done|].
  destruct n as [|mt es]; simpl in H; [right; congruence|].
  rewrite Hlen in H.
  destruct (es !! x); [eauto|left; congruence].
Qed.











End History.



(** ** The outcome of Set *)

Section SetOutcome.
Implicit Types (n : Node) (p q : list string) (c : LocalCacher) (w : World).

Lemma set_root_same w : set_root w (w_root w) = w.
Proof. by destruct w. Qed.

Lemma mkdir_all_walk_blocked now p : ∀ n,
  existsb has_nul p = false →
  match walk n p with
  | inl ENOTDIR | inr (File _ _) => true
  | _ => false
  end = true →
  mkdir_all now n p = (n, Some ENOTDIR).
Proof.
  induction p as [|x p IH]; intros n Hc H; destruct n as [|mt es];
    simpl in *; try done.
  apply orb_false_elim in Hc as [-> Hc].
  destruct (too_long x); [done|].
  destruct (es !! x) as [ch|] eqn:Hx; [|done].
  rewrite (IH _ Hc H). by rewrite insert_id.
Qed.

(** [mkdir_all] fails where a regular file is in the way, and leaves the
    tree as it was. *)
Lemma mkdir_all_blocked now p n :
  blocked n p = true → mkdir_all now n p = (n, Some ENOTDIR).
Proof.
  unfold blocked, lookup_path.
  destruct (existsb has_nul p) eqn:Hc; [done|].
  by apply mkdir_all_walk_blocked.
Qed.

(** Writing to a location that holds a directory is EISDIR. *)
Lemma write_file_on_dir now data p n :
  is_dir n p = true → write_file now data n p = inl EISDIR.
Proof.
  unfold is_dir, lookup_path, write_file.
  destruct (existsb has_nul p); [done|]. revert n.
  induction p as [|x p IH]; intros n H; destruct n as [|mt es];
    simpl in *; try done.
  destruct (too_long x); [done|].
  destruct (es !! x) as [ch|] eqn:Hx; [|done]. by rewrite (IH _ H).
Qed.

(** The lookup of an element with a valid name in a directory. *)
Lemma lookup_path_snoc n p e mt es :
  lookup_path n p = inr (Dir mt es) → valid_name e →
  lookup_path n (p ++ [e])
  = match es !! e with
    | None => inl ENOENT
    | Some ch => inr ch
    end.
Proof.
  intros [Hc H]%lookup_path_inr [Hnul Hlen].
  rewrite lookup_path_clean by (by rewrite existsb_app, Hc; simpl; rewrite Hnul).
  rewrite walk_app, H. simpl. rewrite Hlen. by destruct (es !! e).
Qed.

Lemma is_dir_parent n p e : is_dir n (p ++ [e]) = true → is_dir n p = true.
Proof.
  unfold is_dir, lookup_path. rewrite existsb_app, walk_app.
  destruct (existsb has_nul p); [done|].
  destruct (walk n p) as [?|[|]]; simpl; try done;
    by destruct (has_nul e).
Qed.

(** Below a directory, a write of an element with a valid name succeeds
    unless the element is itself a directory. *)
Lemma write_file_in_dir now data e p n :
  is_dir n p = true → is_dir n (p ++ [e]) = false → valid_name e →
  ∃ n', write_file now data n (p ++ [e]) = inr n'.
Proof.
  unfold is_dir. intros Hp He Hv.
  destruct (lookup_path n p) as [?|[|mt es]] eqn:Hl; try done.
  rewrite (lookup_path_snoc _ _ _ _ _ Hl Hv) in He.
  destruct (es !! e) as [[d t|]|] eqn:Hx; try done.
  - apply write_file_existing with (d0 := d) (t0 := t).
    by rewrite (lookup_path_snoc _ _ _ _ _ Hl Hv), Hx.
  - by eapply write_file_new.
Qed.

End SetOutcome.

(** The outcome of [Set] for a name of segments that are valid file names
    (below a root of valid names, with a local path the kernel takes) and
    a source that ends cleanly, by the state of the tree: a regular file at
    the directory prefix or on the way to it makes [Set] fail with the
    ENOTDIR of mkdir; otherwise a directory at the local name makes it
    fail with the EISDIR of the open; in both cases the world is left
    exactly as it was.  In every other state [Set] succeeds, and the name
    is cached with the bytes of the source and the time of the call. *)
Theorem Set_outcome (c : LocalCacher) (ctx : Context) (segs : list string)
  (e : string) (r : Reader) (b : list byte) (w : World) :
  Forall segment (segs ++ [e]) →
  Forall valid_name (root_dir c w ++ segs ++ [e]) →
  short_path (LocalCacher_localName c (Filepath.join (segs ++ [e])) w) →
  ReadAll r = (b, None) →
  let name := Filepath.join (segs ++ [e]) in
  let prefix := root_dir c w ++ segs in
  if blocked (w_root w) prefix
  then LocalCacher_Set c ctx name r w = (w, Some (PathError "mkdir" ENOTDIR))
  else if is_dir (w_root w) (prefix ++ [e])
  then LocalCacher_Set c ctx name r w = (w, Some (PathError "open" EISDIR))
  else ∃ w1, LocalCacher_Set c ctx name r w = (w1, None) ∧
             cached c name w1 = Some (b, w_clock w).
Proof.
  intros Hs Hv _ Hr name prefix. subst name prefix.
  assert (Hne : segs ++ [e] ≠ []) by by destruct segs.
  rewrite app_assoc in Hv. apply Forall_app in Hv as [Hv He].
  apply Forall_inv in He.
  assert (Hok : ∀ w1, LocalCacher_Set c ctx (Filepath.join (segs ++ [e])) r w
                      = (w1, None) →
                ∃ w1, LocalCacher_Set c ctx (Filepath.join (segs ++ [e])) r w
                      = (w1, None) ∧
                      cached c (Filepath.join (segs ++ [e])) w1
                      = Some (b, w_clock w)).
  { intros w1 Hset. exists w1. split; [done|].
    destruct (Set_ok_file _ _ _ _ _ _ Hset) as (p & Hl & Hn).
    unfold cached, file_at. rewrite Hl, Hn. by rewrite Hr. }
  unfold LocalCacher_Set in *. rewrite Hr in *. unfold MkdirAll, WriteFile in *.
  rewrite locate_Dir_localName in * by done.
  destruct (blocked (w_root w) (root_dir c w ++ segs)) eqn:Hb.
  { by rewrite (mkdir_all_blocked _ _ _ Hb), set_root_same. }
  destruct (is_dir (w_root w) ((root_dir c w ++ segs) ++ [e])) eqn:Hd.
  - pose proof (is_dir_parent _ _ _ Hd) as Hp.
    unfold is_dir in Hp.
    destruct (lookup_path (w_root w) (root_dir c w ++ segs))
      as [?|[|mt es]] eqn:Hl; try done.
    rewrite (mkdir_all_existing _ _ _ _ _ Hl).
    change (locate (set_root w (w_root w))) with (locate w).
    rewrite locate_localName by done. simpl.
    rewrite set_root_same, app_assoc.
    by rewrite (write_file_on_dir _ _ _ _ Hd).
  - unfold blocked in Hb.
    destruct (lookup_path (w_root w) (root_dir c w ++ segs))
      as [err|[|mt es]] eqn:Hl; try done.
    + destruct (lookup_path_errno _ _ _ Hv Hl) as [->| ->]; [|done].
      destruct (mkdir_all_absent (w_clock w) _ _ Hv Hl) as (r1 & Hm & Hdir).
      rewrite Hm in *.
      destruct (write_file_new (w_clock w) b e _ _ _ _ Hdir (lookup_empty e)
                  He) as [r2 Hw].
      change (locate (set_root w r1)) with (locate w) in *.
      rewrite locate_localName in * by done. simpl in *.
      rewrite app_assoc, Hw in *. by eapply Hok.
    + rewrite (mkdir_all_existing _ _ _ _ _ Hl) in *.
      change (locate (set_root w (w_root w))) with (locate w) in *.
      rewrite locate_localName in * by done. simpl in *.
      rewrite app_assoc in *.
      destruct (write_file_in_dir (w_clock w) b e (root_dir c w ++ segs)
                  (w_root w)) as [r2 Hw]; [|done|done|].
      { unfold is_dir. by rewrite Hl. }
      rewrite Hw in *. by eapply Hok.
Qed.

Lemma Set_outcome_witness :
  let c := {| Root := "/r" |} in
  let r := bytes_reader [x02]%byte in
  let w := (LocalCacher_Set c background "a/b" (bytes_reader [x01]%byte)
              empty_world).1 in
  LocalCacher_Set c background
    (Filepath.join (["a"%string; "b"%string] ++ ["c"%string])) r w
  = (w, Some (PathError "mkdir" ENOTDIR)) ∧
  LocalCacher_Set c background (Filepath.join ([] ++ ["a"%string])) r w
  = (w, Some (PathError "open" EISDIR)) ∧
  ∃ w1, LocalCacher_Set c background
          (Filepath.join (["a"%string; "d"%string] ++ ["c"%string])) r w
        = (w1, None) ∧
        cached c (Filepath.join (["a"%string; "d"%string] ++ ["c"%string])) w1
        = Some ([x02]%byte, w_clock w).
Proof.
  intros c r w.
  assert (Hr : ReadAll r = ([x02]%byte, None)) by reflexivity.
  split; [|split].
  - assert (H := Set_outcome c background ["a"%string; "b"%string]
                   "c"%string r [x02]%byte w).
    cbv zeta in H.
    replace (blocked (w_root w)
               (root_dir c w ++ ["a"%string; "b"%string])) with true in H
      by (vm_compute; reflexivity).
    apply H; [repeat constructor; done|vm_compute; repeat constructor|
              vm_compute; reflexivity|exact Hr].
  - assert (H := Set_outcome c background [] "a"%string r [x02]%byte w).
    cbv zeta in H.
    replace (blocked (w_root w) (root_dir c w ++ [])) with false in H
      by (vm_compute; reflexivity).
    replace (is_dir (w_root w) ((root_dir c w ++ []) ++ ["a"%string]))
      with true in H by (vm_compute; reflexivity).
    apply H; [repeat constructor; done|vm_compute; repeat constructor|
              vm_compute; reflexivity|exact Hr].
  - assert (H := Set_outcome c background ["a"%string; "d"%string]
                   "c"%string r [x02]%byte w).
    cbv zeta in H.
    replace (blocked (w_root w)
               (root_dir c w ++ ["a"%string; "d"%string])) with false in H
      by (vm_compute; reflexivity).
    replace (is_dir (w_root w)
               ((root_dir c w ++ ["a"%string; "d"%string]) ++ ["c"%string]))
      with false in H by (vm_compute; reflexivity).
    apply H; [repeat constructor; done|vm_compute; repeat constructor|
              vm_compute; reflexivity|exact Hr].
Defined.

(** [Set] changes the entry of its own name only: what is cached under any
    other name of segments, through the same cacher, stays as it was,
    whatever the outcome of the call. *)
Theorem Set_leaves_other_names (c : LocalCacher) (ctx : Context)
  (segs other : list string) (r : Reader) (w : World) :
  Forall segment segs → segs ≠ [] →
  Forall segment other → other ≠ [] →
  other ≠ segs →
  cached c (Filepath.join other)
    (LocalCacher_Set c ctx (Filepath.join segs) r w).1
  = cached c (Filepath.join other) w.
Proof.
  intros Hs Hne Ho Hone Hdiff.
  set (w1 := (LocalCacher_Set c ctx (Filepath.join segs) r w).1).
  destruct (Set_keeps_host c ctx (Filepath.join segs) r w) as [Hcwd Henv].
  fold w1 in Hcwd, Henv.
  assert (Hdir : root_dir c w1 = root_dir c w).
  { unfold root_dir, root_text, TempDir, Getenv. by rewrite Hcwd, Henv. }
  unfold cached. rewrite !locate_localName by done. rewrite Hdir.
  apply Set_file_at_other with (p := root_dir c w ++ segs).
  - by apply locate_localName.
  - intros Heq. by apply app_inv_head in Heq.
Qed.

Lemma Set_leaves_other_names_witness :
  let c := {| Root := "/r" |} in
  let w := (LocalCacher_Set c background "m/list" (bytes_reader [x01]%byte)
              empty_world).1 in
  cached c (Filepath.join ["m"%string; "list"%string])
    (LocalCacher_Set c background
       (Filepath.join ["m"%string; "v1.info"%string])
       (bytes_reader [x02]%byte) w).1
  = cached c (Filepath.join ["m"%string; "list"%string]) w.
Proof.
  intros c w.
  apply (Set_leaves_other_names c background ["m"%string; "v1.info"%string]
           ["m"%string; "list"%string] (bytes_reader [x02]%byte) w).
  - repeat constructor; done.
  - done.
  - repeat constructor; done.
  - done.
  - discriminate.
Defined.

(** ** Entries side by side *)

Section Cursors.
Implicit Types (c : LocalCacher) (w : World) (lc : localCache).

Lemma new_handle_unused w : w_files w !! new_handle w = None.
Proof.
  unfold new_handle. apply (not_elem_of_dom (D := gset nat)).
  pose proof (is_fresh (dom (w_files w) ∪ w_closed w)). set_solver.
Qed.


Lemma Set_keeps_files c ctx name r w :
  w_files (LocalCacher_Set c ctx name r w).1 = w_files w.
Proof.
  unfold LocalCacher_Set.
  destruct (ReadAll r) as [b [err|]]; [done|]. unfold MkdirAll.
  destruct (locate w (Filepath.Dir _)) as [?|pd]; [done|].
  destruct (mkdir_all _ _ pd) as [r1 [?|]]; [done|].
  unfold WriteFile. destruct (locate _ _) as [?|p]; [done|].
  by destruct (write_file _ b _ p).
Qed.

End Cursors.

(** [Get] only reads the store: it leaves the file tree, the working
    directory, the environment and the clock as they were, and every file
    that was open stays open at its position; at most one new handle is
    added. *)
Theorem Get_is_read_only (c : LocalCacher) (ctx : Context) (name : string)
  (w : World) :
  w_root (LocalCacher_Get c ctx name w).1 = w_root w ∧
  w_cwd (LocalCacher_Get c ctx name w).1 = w_cwd w ∧
  w_env (LocalCacher_Get c ctx name w).1 = w_env w ∧
  w_clock (LocalCacher_Get c ctx name w).1 = w_clock w ∧
  (∀ fd o, w_files w !! fd = Some o →
           w_files (LocalCacher_Get c ctx name w).1 !! fd = Some o) ∧
  (∀ c' name', cached c' name' (LocalCacher_Get c ctx name w).1
               = cached c' name' w).
Proof.
  assert (H : ∃ fs, (LocalCacher_Get c ctx name w).1 = set_files w fs ∧
                    ∀ fd o, w_files w !! fd = Some o → fs !! fd = Some o).
  { unfold LocalCacher_Get, Open.
    destruct (locate w _) as [e|p].
    { exists (w_files w). split; [|done]. destruct w, e; done. }
    destruct (lookup_path (w_root w) p) as [e|node] eqn:Hn.
    { exists (w_files w). split; [|done]. destruct w, e; done. }
    eexists. split.
    - unfold File_Stat. simpl. rewrite lookup_insert_eq. simpl.
      rewrite Hn. reflexivity.
    - intros fd o Hfd. rewrite lookup_insert_ne; [done|].
      intros <-. by rewrite new_handle_unused in Hfd. }
  destruct H as (fs & -> & Hfs). by repeat split.
Qed.



(** An entry is a live view of the file, not a copy of its bytes: when the
    name is set again while the entry is open and not yet read, reading
    the entry gives the new payload. *)
Theorem open_entry_reads_later_Set (c : LocalCacher) (ctx ctx' : Context)
  (name : string) (r : Reader) (P : list byte) (w w1 w2 : World)
  (lc : localCache) :
  LocalCacher_Get c ctx name w = (w1, Ok lc) →
  ReadAll r = (P, None) →
  LocalCacher_Set c ctx' name r w1 = (w2, None) →
  ∀ bufsize fuel, (0 < bufsize)%nat → (length P < fuel)%nat →
    ∃ w3, read_to_end fuel bufsize lc w2 = Some (w3, Ok P).
Proof.
  intros Hget Hr Hset bufsize fuel Hb Hf.
  destruct (Get_ok_inv _ _ _ _ _ _ Hget) as (p & node & Hl & Hn & -> & ->).
  destruct (Set_ok_file _ _ _ _ _ _ Hset) as (p' & Hl' & Hn').
  rewrite Hr in Hn'. simpl in Hn'.
  assert (p' = p) as ->.
  { pose proof (Set_keeps_host c ctx' name r (opened w p)) as [Hcwd Henv].
    rewrite Hset in Hcwd, Henv. simpl in Hcwd, Henv.
    unfold locate, LocalCacher_localName, TempDir, Getenv in Hl, Hl'.
    rewrite Hcwd, Henv in Hl'. rewrite Hl in Hl'. by simplify_eq. }
  pose proof (Set_keeps_files c ctx' name r (opened w p)) as Hfiles.
  rewrite Hset in Hfiles. simpl in Hfiles.
  destruct (read_to_end_file bufsize (entry_of w name node) P
              (w_clock (opened w p)) fuel w2 p 0) as (w3 & Hr3 & _);
    try done.
  - rewrite Hfiles. simpl. by rewrite lookup_insert_eq.
  - eauto.
Qed.

Lemma open_entry_reads_later_Set_witness :
  let c := {| Root := "/r" |} in
  let w := (LocalCacher_Set c background "f" (bytes_reader [x01; x02]%byte)
              empty_world).1 in
  let lc := entry_of w "f" (File [x01; x02]%byte 1) in
  let w1 := opened w ["r"%string; "f"%string] in
  let w2 := (LocalCacher_Set c background "f" (bytes_reader [x09]%byte)
               w1).1 in
  ∃ w3, read_to_end 3 8 lc w2 = Some (w3, Ok [x09]%byte).
Proof.
  intros c w lc w1 w2.
  apply (open_entry_reads_later_Set c background background "f"
           (bytes_reader [x09]%byte) [x09]%byte w w1 w2 lc);
    try (vm_compute; reflexivity); simpl; lia.
Defined.

(** ** Names that share a local name *)

Section Aliases.
Import Filepath.
Implicit Types (c : LocalCacher) (w : World) (xs out : list string).

Lemma split_join_any xs r out :
  Forall (λ e, nosep e = true) xs →
  clean_elems r out (split (join xs)) = clean_elems r out xs.
Proof.
  intros Hxs. destruct xs as [|x xs]; [done|]. by rewrite split_join.
Qed.

(** Empty elements and "." leave no trace in a cleaned path. *)
Lemma clean_elems_filter r xs : ∀ out,
  clean_elems r out (filter (λ e, e ≠ ""%string ∧ e ≠ "."%string) xs)
  = clean_elems r out xs.
Proof.
  induction xs as [|x xs IH]; intros out; [done|].
  rewrite filter_cons. unfold clean_elems in *. case_decide as Hx.
  - cbn [fold_left]. apply IH.
  - cbn [fold_left]. rewrite IH. f_equal. unfold clean_step.
    repeat case_decide; try done; by destruct Hx.
Qed.

Lemma localName_of_elems c w xs :
  Forall (λ e, nosep e = true) xs →
  LocalCacher_localName c (join xs) w
  = render (rooted (root_text c w))
      (rev (clean_elems (rooted (root_text c w))
              (clean_elems (rooted (root_text c w)) []
                 (split (root_text c w))) xs)).
Proof.
  intros Hxs. rewrite localName_Clean. unfold Clean.
  rewrite rooted_app by apply root_text_not_empty.
  by rewrite split_app_sep, clean_elems_app, split_join_any.
Qed.

(** The stack that ".." elements leave of a stack without "..". *)
Lemma clean_elems_dotdot k : ∀ out,
  Forall (λ x, x ≠ ".."%string) out →
  clean_elems true out (replicate k ".."%string) = drop k out.
Proof.
  induction k as [|k IH]; intros out Hout; [done|].
  change (clean_elems true out (replicate (S k) ".."%string))
    with (clean_elems true (clean_step true out ".."%string)
            (replicate k ".."%string)).
  destruct out as [|top below].
  - change (clean_step true [] ".."%string) with (@nil string).
    rewrite (IH [] Hout). by rewrite !drop_nil.
  - apply Forall_cons in Hout as [Htop Hbelow].
    replace (clean_step true (top :: below) ".."%string) with below.
    + by apply IH.
    + unfold clean_step. simpl. by rewrite decide_False.
Qed.

End Aliases.

(** Names that differ only in empty and "." segments (doubled, leading or
    trailing slashes, "./") are one entry: they translate to the same local
    name, so [Set] under one of them is the very same operation as [Set]
    under the other, and [Get] opens the same file. *)
Theorem names_differing_in_dots_are_one_entry (c : LocalCacher)
  (ctx : Context) (xs : list string) (r : Reader) (w : World) :
  Forall (λ e, Filepath.nosep e = true) xs →
  let short := filter (λ e, e ≠ ""%string ∧ e ≠ "."%string) xs in
  LocalCacher_localName c (Filepath.join xs) w
  = LocalCacher_localName c (Filepath.join short) w ∧
  LocalCacher_Set c ctx (Filepath.join xs) r w
  = LocalCacher_Set c ctx (Filepath.join short) r w ∧
  cached c (Filepath.join xs) w = cached c (Filepath.join short) w.
Proof.
  intros Hxs short.
  assert (Hshort : Forall (λ e, Filepath.nosep e = true) short).
  { apply Forall_forall. intros x [_ Hx]%list_elem_of_filter.
    rewrite Forall_forall in Hxs. by apply Hxs. }
  assert (Heq : LocalCacher_localName c (Filepath.join xs) w
                = LocalCacher_localName c (Filepath.join short) w).
  { rewrite !localName_of_elems by done. subst short.
    by rewrite clean_elems_filter. }
  split; [done|]. split.
  - unfold LocalCacher_Set. by rewrite Heq.
  - unfold cached. by rewrite Heq.
Qed.

Lemma names_differing_in_dots_are_one_entry_witness :
  let c := {| Root := "/r" |} in
  let xs := [""%string; "a"%string; "."%string; ""%string; "b"%string;
             ""%string] in
  let short := filter (λ e, e ≠ ""%string ∧ e ≠ "."%string) xs in
  LocalCacher_localName c (Filepath.join xs) empty_world
  = LocalCacher_localName c (Filepath.join short) empty_world ∧
  LocalCacher_Set c background (Filepath.join xs) (bytes_reader [x01]%byte)
    empty_world
  = LocalCacher_Set c background (Filepath.join short)
      (bytes_reader [x01]%byte) empty_world ∧
  cached c (Filepath.join xs) empty_world
  = cached c (Filepath.join short) empty_world.
Proof.
  intros c xs.
  apply (names_differing_in_dots_are_one_entry c background xs
           (bytes_reader [x01]%byte) empty_world).
  repeat constructor.
Defined.

(** No confinement to the root: a name that starts with [k] ".." segments
    is stored [k] levels above the root directory (at "/" when the root is
    less than [k] levels deep), whatever [Root] is. *)
Theorem parent_segments_leave_the_root (c : LocalCacher) (w : World)
  (k : nat) (segs : list string) :
  Forall segment segs → segs ≠ [] →
  Forall (λ x, x ≠ ".."%string) (root_dir c w) →
  locate w (LocalCacher_localName c
              (Filepath.join (replicate k ".."%string ++ segs)) w)
  = inr (take (length (root_dir c w) - k) (root_dir c w) ++ segs).
Proof.
  intros Hs Hne Hroot. unfold locate.
  rewrite localName_Clean.
  rewrite decide_False by apply Clean_not_empty. f_equal.
  rewrite abs_Clean. unfold Filepath.abs.
  rewrite rooted_app by apply root_text_not_empty.
  rewrite split_app_sep, clean_elems_app, split_join_any.
  2:{ apply Forall_app. split.
      - by apply Forall_replicate.
      - eapply Forall_impl; [exact Hs|]. by intros ? [_ ?]. }
  rewrite clean_elems_app.
  set (S := Filepath.clean_elems true _ (Filepath.split (root_text c w))).
  assert (Hrd : root_dir c w = rev S) by done.
  rewrite Hrd in *.
  assert (HS : Forall (λ x, x ≠ ".."%string) S).
  { apply Forall_forall. intros x Hx. rewrite Forall_forall in Hroot.
    apply Hroot. by apply list_elem_of_In, in_rev, list_elem_of_In in Hx. }
  rewrite clean_elems_dotdot by done.
  rewrite clean_elems_plain by by apply segments_plain.
  rewrite rev_app_distr, rev_involutive. f_equal.
  pose proof (List.skipn_rev k (rev S)) as Hskip.
  rewrite rev_involutive in Hskip. rewrite Hskip.
  by rewrite rev_involutive.
Qed.

Lemma parent_segments_leave_the_root_witness :
  locate empty_world
    (LocalCacher_localName {| Root := "/var/cache" |}
       (Filepath.join (replicate 2 ".."%string
                       ++ ["etc"%string; "passwd"%string])) empty_world)
  = inr (take (length (root_dir {| Root := "/var/cache" |} empty_world) - 2)
           (root_dir {| Root := "/var/cache" |} empty_world)
         ++ ["etc"%string; "passwd"%string]).
Proof.
  apply (parent_segments_leave_the_root {| Root := "/var/cache" |}
           empty_world 2 ["etc"%string; "passwd"%string]).
  - repeat constructor; done.
  - done.
  - vm_compute. repeat constructor; discriminate.
Defined.

(** ** Directories as entries, sizes and partial reads *)

(** A name that is the directory prefix of a cached name is itself
    answered by [Get]: after a successful [Set] of a/.../e, [Get] of a/...
    opens the directory that [Set] made and returns an entry with a nil
    error.  A read of that entry into a buffer of at least one byte fails
    with EISDIR, and so does a read to the end of the stream; a read into
    a buffer of no bytes reads nothing and reports no error. *)
Theorem Get_of_directory_prefix (c : LocalCacher) (ctx ctx' : Context)
  (segs : list string) (e : string) (r : Reader) (w w1 : World) :
  Forall segment (segs ++ [e]) → segs ≠ [] →
  LocalCacher_Set c ctx (Filepath.join (segs ++ [e])) r w = (w1, None) →
  ∃ w2 lc,
    LocalCacher_Get c ctx' (Filepath.join segs) w1 = (w2, Ok lc) ∧
    localCache_Name lc = Filepath.join segs ∧
    (∀ n, (0 < n)%nat →
          localCache_Read lc n w2
          = (w2, ([], Some (PathError "read" EISDIR)))) ∧
    localCache_Read lc 0 w2 = (w2, ([], None)) ∧
    (∀ fuel bufsize, (0 < bufsize)%nat →
       read_to_end (S fuel) bufsize lc w2
       = Some (w2, Error (PathError "read" EISDIR))).
Proof.
  intros Hs Hne Hset.
  destruct (Set_ok_inv _ _ _ _ _ _ Hset)
    as (b & pd & p & r1 & r2 & Hr & Hd & Hm & Hl & Hw & ->).
  rewrite locate_Dir_localName in Hd by done. injection Hd as <-.
  destruct (mkdir_all_is_dir _ _ _ _ Hm) as (mt & es & Hdir).
  destruct (write_file_keeps_dirs _ _ _ _ _ _ _ _ Hw Hdir)
    as (mt' & es' & Hdir').
  apply Forall_app in Hs as [Hsegs _].
  set (w1 := set_root (set_root w r1) r2) in *.
  assert (Hloc : locate w1 (LocalCacher_localName c (Filepath.join segs) w1)
                 = inr (root_dir c w ++ segs)).
  { by rewrite locate_localName. }
  assert (Hread : ∀ n, (0 < n)%nat →
            localCache_Read (entry_of w1 (Filepath.join segs) (Dir mt' es')) n
              (opened w1 (root_dir c w ++ segs))
            = (opened w1 (root_dir c w ++ segs),
               ([], Some (PathError "read" EISDIR)))).
  { intros n Hpos. unfold localCache_Read, File_Read. simpl.
    rewrite lookup_insert_eq. destruct n as [|n]; [lia|].
    simpl. by rewrite Hdir'. }
  eexists _, _. split; [by apply Get_found with (node := Dir mt' es')|].
  split; [done|]. split; [exact Hread|]. split.
  - unfold localCache_Read, File_Read. simpl. by rewrite lookup_insert_eq.
  - intros fuel bufsize Hpos. simpl. by rewrite Hread.
Qed.

Lemma Get_of_directory_prefix_witness :
  let c := {| Root := "/r" |} in
  let w1 := (LocalCacher_Set c background
               (Filepath.join (["m"%string; "@v"%string] ++ ["list"%string]))
               (bytes_reader [x01]%byte) empty_world).1 in
  ∃ w2 lc,
    LocalCacher_Get c background
      (Filepath.join ["m"%string; "@v"%string]) w1 = (w2, Ok lc) ∧
    localCache_Name lc = Filepath.join ["m"%string; "@v"%string] ∧
    (∀ n, (0 < n)%nat →
          localCache_Read lc n w2
          = (w2, ([], Some (PathError "read" EISDIR)))) ∧
    localCache_Read lc 0 w2 = (w2, ([], None)) ∧
    (∀ fuel bufsize, (0 < bufsize)%nat →
       read_to_end (S fuel) bufsize lc w2
       = Some (w2, Error (PathError "read" EISDIR))).
Proof.
  intros c w1.
  apply (Get_of_directory_prefix c background background
           ["m"%string; "@v"%string] "list"%string (bytes_reader [x01]%byte)
           empty_world w1).
  - repeat constructor; done.
  - done.
  - vm_compute; reflexivity.
Defined.

(** The size of an entry by seeking: on a fresh entry over a payload,
    [Seek(0, io.SeekEnd)] returns the length of the payload and leaves the
    entry at its end, where a read gives [io.EOF]; [Seek(0, io.SeekStart)]
    then rewinds, and the full read gives the whole payload again. *)
Theorem size_by_Seek_and_rewind (c : LocalCacher) (ctx : Context)
  (name : string) (w w1 : World) (lc : localCache) (p : list string)
  (data : list byte) (mt : Z) :
  LocalCacher_Get c ctx name w = (w1, Ok lc) →
  locate w (LocalCacher_localName c name w) = inr p →
  lookup_path (w_root w) p = inr (File data mt) →
  ∃ w2 w3,
    localCache_Seek lc 0 2 w1 = (w2, Ok (Z.of_nat (length data))) ∧
    (∀ n, (0 < n)%nat → localCache_Read lc n w2 = (w2, ([], Some io_EOF))) ∧
    localCache_Seek lc 0 0 w2 = (w3, Ok 0) ∧
    ∀ bufsize fuel, (0 < bufsize)%nat → (length data < fuel)%nat →
      ∃ w4, read_to_end fuel bufsize lc w3 = Some (w4, Ok data).
Proof.
  intros Hget Hl Hn.
  rewrite (Get_found c ctx name w p _ Hl Hn) in Hget.
  injection Hget as <- <-.
  set (lc := entry_of w name (File data mt)).
  set (w2 := set_files (opened w p)
               (<[lc_file lc := {| of_path := p;
                                   of_offset := Z.of_nat (length data) |}]>
                  (w_files (opened w p)))).
  set (w3 := set_files w2
               (<[lc_file lc := {| of_path := p; of_offset := 0 |}]>
                  (w_files w2))).
  exists w2, w3. repeat split.
  - unfold localCache_Seek.
    rewrite (File_Seek_file _ 0 2 _ p 0 data mt (Z.of_nat (length data)));
      [done|by simpl; rewrite lookup_insert_eq|done|lia|].
    rewrite lseek_file_within by (simpl; lia). simpl. f_equal. lia.
  - intros n Hpos. unfold localCache_Read, File_Read. simpl.
    rewrite lookup_insert_eq. destruct n as [|n]; [lia|]. simpl.
    rewrite Hn. by rewrite Nat2Z.id, drop_all, take_nil.
  - unfold localCache_Seek.
    rewrite (File_Seek_file _ 0 0 _ p (Z.of_nat (length data)) data mt 0);
      [done|by simpl; rewrite lookup_insert_eq|done|lia|].
    by rewrite lseek_file_within by (simpl; lia).
  - intros bufsize fuel Hb Hf.
    destruct (read_to_end_file bufsize lc data mt fuel w3 p 0)
      as (w4 & Hr4 & _); try done.
    + simpl. by rewrite lookup_insert_eq.
    + eauto.
Qed.

Lemma size_by_Seek_and_rewind_witness :
  let c := {| Root := "/r" |} in
  let data := [x0a; x0b; x0c]%byte in
  let w := (LocalCacher_Set c background "f" (bytes_reader data)
              empty_world).1 in
  let lc := entry_of w "f" (File data 1) in
  ∃ w2 w3,
    localCache_Seek lc 0 2 (opened w ["r"%string; "f"%string])
    = (w2, Ok (Z.of_nat (length data))) ∧
    (∀ n, (0 < n)%nat → localCache_Read lc n w2 = (w2, ([], Some io_EOF))) ∧
    localCache_Seek lc 0 0 w2 = (w3, Ok 0) ∧
    ∀ bufsize fuel, (0 < bufsize)%nat → (length data < fuel)%nat →
      ∃ w4, read_to_end fuel bufsize lc w3 = Some (w4, Ok data).
Proof.
  intros c data w lc.
  apply (size_by_Seek_and_rewind c background "f" w
           (opened w ["r"%string; "f"%string]) lc ["r"%string; "f"%string]
           data 1); vm_compute; reflexivity.
Defined.

(** Reading in pieces loses nothing: on a fresh entry over a payload that
    is not empty, one [Read] into a buffer of [n] > 0 bytes delivers, with
    a nil error, the first bytes of the payload: as many as one read moves
    into that buffer, which is [n] for a buffer of up to 1 GiB and 1 GiB
    for a larger one (all of the payload when it is shorter); reading on
    to the end of the stream delivers exactly the rest. *)
Theorem Read_then_rest (c : LocalCacher) (ctx : Context) (name : string)
  (w w1 : World) (lc : localCache) (p : list string) (data : list byte)
  (mt : Z) (n : nat) :
  LocalCacher_Get c ctx name w = (w1, Ok lc) →
  locate w (LocalCacher_localName c name w) = inr p →
  lookup_path (w_root w) p = inr (File data mt) →
  (0 < n)%nat → data ≠ [] →
  Z.of_nat (read_size n) = Z.min (Z.of_nat n) 1073741824 ∧
  ∃ w2,
    localCache_Read lc n w1 = (w2, (take (read_size n) data, None)) ∧
    ∀ bufsize fuel, (0 < bufsize)%nat → (length data < fuel)%nat →
      ∃ w3, read_to_end fuel bufsize lc w2
            = Some (w3, Ok (drop (read_size n) data)).
Proof.
  intros Hget Hl Hn Hpos Hdata.
  split; [unfold read_size, maxRW; lia|].
  assert (Hsize : (0 < read_size n)%nat) by (unfold read_size, maxRW; lia).
  rewrite (Get_found c ctx name w p _ Hl Hn) in Hget.
  injection Hget as <- <-.
  set (lc := entry_of w name (File data mt)).
  set (k := read_size n) in *.
  set (off := 0 + Z.of_nat (length (take k data))).
  set (w2 := set_files (opened w p)
               (<[lc_file lc := {| of_path := p; of_offset := off |}]>
                  (w_files (opened w p)))).
  assert (Hdrop : drop (Z.to_nat off) data = drop k data).
  { subst off. rewrite length_take.
    destruct (decide (k ≤ length data)%nat).
    - f_equal. lia.
    - rewrite !drop_ge; [done|lia|lia]. }
  exists w2. split.
  - unfold localCache_Read, File_Read. simpl.
    rewrite lookup_insert_eq. destruct n as [|n]; [lia|]. simpl.
    rewrite Hn. fold k. subst w2 off.
    destruct k as [|k']; [lia|]. by destruct data.
  - intros bufsize fuel Hb Hf.
    destruct (read_to_end_file bufsize lc data mt fuel w2 p off)
      as (w3 & Hr3 & _); try done.
    + simpl. by rewrite lookup_insert_eq.
    + subst off. lia.
    + rewrite length_drop. lia.
    + rewrite Hdrop in Hr3. eauto.
Qed.

Lemma Read_then_rest_witness :
  let c := {| Root := "/r" |} in
  let data := [x0a; x0b; x0c]%byte in
  let w := (LocalCacher_Set c background "f" (bytes_reader data)
              empty_world).1 in
  let lc := entry_of w "f" (File data 1) in
  Z.of_nat (read_size 2) = Z.min (Z.of_nat 2) 1073741824 ∧
  ∃ w2,
    localCache_Read lc 2 (opened w ["r"%string; "f"%string])
    = (w2, (take (read_size 2) data, None)) ∧
    ∀ bufsize fuel, (0 < bufsize)%nat → (length data < fuel)%nat →
      ∃ w3, read_to_end fuel bufsize lc w2
            = Some (w3, Ok (drop (read_size 2) data)).
Proof.
  intros c data w lc.
  apply (Read_then_rest c background "f" w
           (opened w ["r"%string; "f"%string]) lc ["r"%string; "f"%string]
           data 1 2); try (vm_compute; reflexivity).
  - lia.
  - discriminate.
Defined.
